(** * Rate-limited, retrying call executor of [semantic_scholar_search.py]

    A shallow embedding of the three functions that make up the request
    governor of the Semantic Scholar client:

    - [_wait_for_request_slot]: the process-wide 1 request/second gate;
    - [_is_retriable_error]: the transient/fatal classification of errors;
    - [_call_with_rate_limit_and_backoff]: the retry loop with capped
      exponential backoff and jitter.

    Python floats (seconds) are embedded as rationals [Q]: arithmetic on
    finite floats is taken as exact, and [nan], [inf] and sleeps longer
    than the platform's timer can hold are left out.  What Python does
    when an [int] beyond the float range is converted ([OverflowError])
    and what [time.sleep] does with a negative argument ([ValueError])
    changes the control flow of the retry loop and is written out; a
    run through several retries is spoken of when its sleeps stay
    [in_timer_range].

    One thread follows a [world] through the state and exception monad
    [M]; callers on several threads run [_wait_for_request_slot] a
    statement at a time on the state they share ([thread_step]).

    The file has two parts: the embedding (definitions), then the
    properties proved of it. *)

From Stdlib Require Import ZArith QArith Qminmax Lqa Lia.
From Stdlib Require Import List Bool Ascii String.
Import ListNotations.

(* ================================================================== *)
(** * Exceptions *)
(* ================================================================== *)

(** The classes [_is_retriable_error] tells apart with [isinstance]; a
    subclass counts as its base.  [NotAnException] stands for a
    [BaseException] outside [Exception] ([KeyboardInterrupt],
    [SystemExit]), which [except Exception] does not catch. *)
Inductive exn_class : Type :=
| ConnectionRefusedError
| TimeoutError
| InternalServerErrorException
| GatewayTimeoutException
| OtherException
| NotAnException.

(** An exception value: its class and [str(error)]. *)
Record exn : Type := MkExn { class_of : exn_class; message : string }.

Definition exn_class_eqb (a b : exn_class) : bool :=
  match a, b with
  | ConnectionRefusedError, ConnectionRefusedError
  | TimeoutError, TimeoutError
  | InternalServerErrorException, InternalServerErrorException
  | GatewayTimeoutException, GatewayTimeoutException
  | OtherException, OtherException
  | NotAnException, NotAnException => true
  | _, _ => false
  end.

(** [isinstance(error, classes)] *)
Definition isinstance (e : exn) (classes : list exn_class) : bool :=
  existsb (exn_class_eqb (class_of e)) classes.

(** [except Exception] catches everything but [NotAnException]. *)
Definition caught_by_except_Exception (e : exn) : bool :=
  negb (exn_class_eqb (class_of e) NotAnException).

(** [OverflowError] of [float * int] when the [int] is out of the float
    range, and [ValueError] of [time.sleep] on a negative length. *)
Definition OverflowError : exn :=
  MkExn OtherException "int too large to convert to float".
Definition ValueError_sleep : exn :=
  MkExn OtherException "sleep length must be non-negative".

(* ================================================================== *)
(** * Strings: [str.lower] and [token in message] *)
(* ================================================================== *)

(** [str.lower] on one character.  The message is held as bytes; only
    the letters [A]..[Z] move, which is all the ASCII tokens below can
    observe. *)
Definition lower_ascii (c : ascii) : ascii :=
  let n := nat_of_ascii c in
  if (65 <=? n)%nat && (n <=? 90)%nat then ascii_of_nat (n + 32) else c.

Fixpoint lower (s : string) : string :=
  match s with
  | EmptyString => EmptyString
  | String c rest => String (lower_ascii c) (lower rest)
  end.

(** [token in message]: [token] occurs in [message] as a substring. *)
Fixpoint contains (token msg : string) : bool :=
  prefix token msg ||
  match msg with
  | EmptyString => false
  | String _ rest => contains token rest
  end.

(** The relation [contains] decides. *)
Definition substring_of (token msg : string) : Prop :=
  exists pre post, msg = (pre ++ token ++ post)%string.

(** The letters, each with its capital. *)
Definition capitals : list (ascii * ascii) :=
  [ ("a", "A"); ("b", "B"); ("c", "C"); ("d", "D"); ("e", "E");
    ("f", "F"); ("g", "G"); ("h", "H"); ("i", "I"); ("j", "J");
    ("k", "K"); ("l", "L"); ("m", "M"); ("n", "N"); ("o", "O");
    ("p", "P"); ("q", "Q"); ("r", "R"); ("s", "S"); ("t", "T");
    ("u", "U"); ("v", "V"); ("w", "W"); ("x", "X"); ("y", "Y");
    ("z", "Z") ]%char.

(** [s] is [token] with some of its letters written as capitals. *)
Fixpoint spells (token s : string) : Prop :=
  match token, s with
  | EmptyString, EmptyString => True
  | String t token', String c s' =>
      (c = t \/ In (t, c) capitals) /\ spells token' s'
  | _, _ => False
  end.

(** [msg] contains [token] written in any mix of upper and lower case. *)
Definition contains_any_case (token msg : string) : Prop :=
  exists pre s post, msg = (pre ++ s ++ post)%string /\ spells token s.

(* ================================================================== *)
(** * [_is_retriable_error] *)
(* ================================================================== *)

Definition retriable_tokens : list string :=
  [ "429";
    "too many requests";
    "timed out";
    "timeout";
    "connection reset";
    "connection aborted";
    "temporarily unavailable";
    "502";
    "503";
    "504" ]%string.

Definition _is_retriable_error (error : exn) : bool :=
  if isinstance error [ConnectionRefusedError; TimeoutError] then true
  else if isinstance error [InternalServerErrorException;
                            GatewayTimeoutException]
  then true
  else
    let message := lower (message error) in
    existsb (fun token => contains token message) retriable_tokens.

(* ================================================================== *)
(** * Module state *)
(* ================================================================== *)

(** The module-level names of [semantic_scholar_search.py] that the
    governor reads or writes.  Seconds are rationals. *)
Record globals : Type := MkGlobals {
  REQUEST_INTERVAL_SECONDS : Q;
  MAX_RETRIES : Z;
  BACKOFF_BASE_SECONDS : Q;
  BACKOFF_MAX_SECONDS : Q;
  BACKOFF_JITTER_SECONDS : Q;
  _next_request_time : Q
}.

(** [os.environ], restricted to the four variables the module reads and
    taken after [int(...)]/[float(...)]: [None] is an unset variable. *)
Record environ : Type := MkEnviron {
  S2_MAX_RETRIES : option Z;
  S2_BACKOFF_BASE_SECONDS : option Q;
  S2_BACKOFF_MAX_SECONDS : option Q;
  S2_BACKOFF_JITTER_SECONDS : option Q
}.

(** [os.getenv(name, default)] *)
Definition getenv {A : Type} (var : option A) (default : A) : A :=
  match var with
  | Some v => v
  | None => default
  end.

(** The assignments run once, when the module is imported. *)
Definition module_globals (env : environ) : globals :=
  {| REQUEST_INTERVAL_SECONDS := 1;
     MAX_RETRIES := getenv (S2_MAX_RETRIES env) 5%Z;
     BACKOFF_BASE_SECONDS := getenv (S2_BACKOFF_BASE_SECONDS env) 1;
     BACKOFF_MAX_SECONDS := getenv (S2_BACKOFF_MAX_SECONDS env) 32;
     BACKOFF_JITTER_SECONDS := getenv (S2_BACKOFF_JITTER_SECONDS env) (1 # 4);
     _next_request_time := 0 |}.

(** The one write a function of the module performs on a global
    ([global _next_request_time]). *)
Definition set_next_request_time (v : Q) (g : globals) : globals :=
  {| REQUEST_INTERVAL_SECONDS := REQUEST_INTERVAL_SECONDS g;
     MAX_RETRIES := MAX_RETRIES g;
     BACKOFF_BASE_SECONDS := BACKOFF_BASE_SECONDS g;
     BACKOFF_MAX_SECONDS := BACKOFF_MAX_SECONDS g;
     BACKOFF_JITTER_SECONDS := BACKOFF_JITTER_SECONDS g;
     _next_request_time := v |}.

(** What a thread of the process sees: the module globals, whether
    [_rate_limit_lock] is held, the monotonic clock, and how many times
    the operation and the random generator have been called. *)
Record world : Type := MkWorld {
  G : globals;
  rate_limit_lock_held : bool;
  clock : Q;
  op_calls : nat;
  rand_calls : nat
}.

(** The process right after import, with the clock reading [t0]. *)
Definition boot (env : environ) (t0 : Q) : world :=
  {| G := module_globals env;
     rate_limit_lock_held := false;
     clock := t0;
     op_calls := 0;
     rand_calls := 0 |}.

Definition set_G (g : globals) (w : world) : world :=
  {| G := g; rate_limit_lock_held := rate_limit_lock_held w;
     clock := clock w; op_calls := op_calls w; rand_calls := rand_calls w |}.

Definition set_lock (b : bool) (w : world) : world :=
  {| G := G w; rate_limit_lock_held := b;
     clock := clock w; op_calls := op_calls w; rand_calls := rand_calls w |}.

Definition set_clock (t : Q) (w : world) : world :=
  {| G := G w; rate_limit_lock_held := rate_limit_lock_held w;
     clock := t; op_calls := op_calls w; rand_calls := rand_calls w |}.

(* ================================================================== *)
(** * Effects *)
(* ================================================================== *)

(** The two places that call [time.sleep]. *)
Inductive sleep_site : Type :=
| RequestSlot   (* [_wait_for_request_slot] *)
| BackoffDelay. (* [_call_with_rate_limit_and_backoff] *)

(** What a run does that can be observed, in the order it happens. *)
Inductive event : Type :=
| LockAcquired
| LockReleased
| StoredNextRequestTime (v : Q) (locked : bool)
| Slept (site : sleep_site) (seconds : Q)
| Invoked (nth : nat)
| Warned (error : exn) (delay : Q) (retry_no : Z) (max_retries : Z).

(** A Python call returns or raises. *)
Inductive result (A : Type) : Type :=
| Ok (a : A)
| Raise (e : exn).
Arguments Ok {A} a.
Arguments Raise {A} e.

(** State, exceptions and the events emitted. *)
Definition M (A : Type) : Type := world -> result A * world * list event.

Definition ret {A : Type} (a : A) : M A := fun w => (Ok a, w, []).

Definition raise {A : Type} (e : exn) : M A := fun w => (Raise e, w, []).

Definition bind {A B : Type} (m : M A) (k : A -> M B) : M B :=
  fun w =>
    match m w with
    | (Ok a, w1, t1) =>
        let '(r, w2, t2) := k a w1 in (r, w2, t1 ++ t2)
    | (Raise e, w1, t1) => (Raise e, w1, t1)
    end.

Declare Scope py_scope.
Delimit Scope py_scope with py.
Notation "x <- m ;; k" := (bind m (fun x => k))
  (at level 100, m at next level, right associativity) : py_scope.
Notation "m ;; k" := (bind m (fun _ => k))
  (at level 100, right associativity) : py_scope.
Open Scope py_scope.

(** Reading a module global. *)
Definition global {A : Type} (name : globals -> A) : M A :=
  fun w => (Ok (name (G w)), w, []).

(** [_next_request_time = v]; the event keeps whether the lock was held. *)
Definition store_next_request_time (v : Q) : M unit :=
  fun w => (Ok tt, set_G (set_next_request_time v (G w)) w,
            [StoredNextRequestTime v (rate_limit_lock_held w)]).

(** [time.monotonic()] *)
Definition monotonic : M Q := fun w => (Ok (clock w), w, []).

(** [time.sleep(seconds)]: a negative length raises [ValueError];
    otherwise the caller resumes [seconds] later.  Python also refuses,
    with [OverflowError], a length beyond what its timer counts
    (nanoseconds in 63 bits, a little over [timer_range_seconds]);
    [sleep] has no such limit, and what is stated of a run through the
    retry loop is stated of runs that stay [in_timer_range]. *)
Definition sleep (site : sleep_site) (seconds : Q) : M unit :=
  fun w =>
    if Qlt_le_dec seconds 0 then (Raise ValueError_sleep, w, [])
    else (Ok tt, set_clock (clock w + seconds) w, [Slept site seconds]).

(** [with _rate_limit_lock: body].  Entering returns once the lock is
    ours (time spent waiting for another holder is before [body] reads
    the clock); leaving releases it, also when [body] raises. *)
Definition with_rate_limit_lock {A : Type} (body : M A) : M A :=
  fun w =>
    let '(r, w1, t) := body (set_lock true w) in
    (r, set_lock false w1, LockAcquired :: t ++ [LockReleased]).

(** [logger.warning(...)] *)
Definition warning (error : exn) (delay : Q) (retry_no max_retries : Z)
  : M unit :=
  fun w => (Ok tt, w, [Warned error delay retry_no max_retries]).

(** The conversion [float * int] applies to its [int] operand: an
    integer that rounds to [2^1024] or beyond raises [OverflowError].
    Below that the value is taken as exact (it is for a power of two). *)
Definition float_int_limit : Z := 2 ^ 1024 - 2 ^ 970.

Definition int_fits_float (n : Z) : bool := (Z.abs n <? float_int_limit)%Z.

Definition float_of_int (n : Z) : M Q :=
  if int_fits_float n then ret (inject_Z n) else raise OverflowError.

(** [x * n] for a float [x] and an int [n]. *)
Definition float_times_int (x : Q) (n : Z) : M Q :=
  n' <- float_of_int n ;;
  ret (x * n').

(** What the process around the governor does: the outcome of the
    [n]-th call of the wrapped operation and the seconds it takes, and
    the [n]-th value of [random.random()]. *)
Inductive outcome (T : Type) : Type :=
| Returns (v : T)
| Raises (error : exn).
Arguments Returns {T} v.
Arguments Raises {T} error.

Record surroundings (T : Type) : Type := MkSurroundings {
  operation : nat -> outcome T;
  op_seconds : nat -> Q;
  random : nat -> Q
}.
Arguments MkSurroundings {T} operation op_seconds random.
Arguments operation {T} s n.
Arguments op_seconds {T} s n.
Arguments random {T} s n.

(** The call [operation(...)] inside [try], its outcome handed on. *)
Definition call_operation {T : Type} (s : surroundings T) : M (outcome T) :=
  fun w =>
    let n := op_calls w in
    (Ok (operation s n),
     {| G := G w; rate_limit_lock_held := rate_limit_lock_held w;
        clock := clock w + op_seconds s n;
        op_calls := S n; rand_calls := rand_calls w |},
     [Invoked n]).

(** [random.uniform(a, b)], which is [a + (b - a) * random()]. *)
Definition random_uniform {T : Type} (s : surroundings T) (a b : Q) : M Q :=
  fun w =>
    let n := rand_calls w in
    (Ok (a + (b - a) * random s n),
     {| G := G w; rate_limit_lock_held := rate_limit_lock_held w;
        clock := clock w; op_calls := op_calls w; rand_calls := S n |},
     []).

(* ================================================================== *)
(** * [_wait_for_request_slot] *)
(* ================================================================== *)

(** The block under the lock; it hands out the two locals
    [(reserved_time, wait_seconds)].  ([wait_seconds = 0.0] before the
    block is overwritten in it.) *)
Definition reserve_request_slot : M (Q * Q) :=
  with_rate_limit_lock (
    now <- monotonic ;;
    next_request_time <- global _next_request_time ;;
    let reserved_time := Qmax now next_request_time in
    let wait_seconds := reserved_time - now in
    interval <- global REQUEST_INTERVAL_SECONDS ;;
    store_next_request_time (reserved_time + interval) ;;
    ret (reserved_time, wait_seconds)).

(** [if wait_seconds > 0: time.sleep(wait_seconds)], lock released. *)
Definition wait_reserved (wait_seconds : Q) : M unit :=
  if Qlt_le_dec 0 wait_seconds then sleep RequestSlot wait_seconds
  else ret tt.

Definition _wait_for_request_slot : M unit :=
  slot <- reserve_request_slot ;;
  wait_reserved (snd slot).

(* ================================================================== *)
(** * [_call_with_rate_limit_and_backoff] *)
(* ================================================================== *)

(** How one pass through the body of the [for] loop ends when it does
    not raise. *)
Inductive loop_step (T : Type) : Type :=
| Return (v : T)
| Continue.
Arguments Return {T} v.
Arguments Continue {T}.

Section Executor.
Context {T : Type}.
Variable s : surroundings T.

(** The [except Exception as error] block. *)
Definition handle_error (attempt : Z) (error : exn) : M (loop_step T) :=
  max_retries <- global MAX_RETRIES ;;
  let should_retry :=
    (attempt <? max_retries)%Z && _is_retriable_error error in
  if negb should_retry then raise error
  else
    backoff_max <- global BACKOFF_MAX_SECONDS ;;
    backoff_base <- global BACKOFF_BASE_SECONDS ;;
    scaled <- float_times_int backoff_base (2 ^ attempt) ;;
    let backoff := Qmin backoff_max scaled in
    jitter_max <- global BACKOFF_JITTER_SECONDS ;;
    jitter <- random_uniform s 0 jitter_max ;;
    let delay := backoff + jitter in
    warning error delay (attempt + 1) max_retries ;;
    sleep BackoffDelay delay ;;
    ret Continue.

(** The body of [for attempt in range(MAX_RETRIES + 1)]. *)
Definition attempt_body (attempt : Z) : M (loop_step T) :=
  _wait_for_request_slot ;;
  r <- call_operation s ;;
  match r with
  | Returns v => ret (Return v)
  | Raises error =>
      if caught_by_except_Exception error then handle_error attempt error
      else raise error
  end.

(** The loop, with [remaining] values of [attempt] still to go.
    Running off its end is Python's implicit [return None]. *)
Fixpoint for_attempts (remaining : nat) (attempt : Z) : M (option T) :=
  match remaining with
  | O => ret None
  | S k =>
      step <- attempt_body attempt ;;
      match step with
      | Return v => ret (Some v)
      | Continue => for_attempts k (attempt + 1)
      end
  end.

Definition _call_with_rate_limit_and_backoff : M (option T) :=
  max_retries <- global MAX_RETRIES ;;
  for_attempts (Z.to_nat (max_retries + 1)) 0.

End Executor.

(* ================================================================== *)
(** * Callers of the governor *)
(* ================================================================== *)

(** ** Callers on several threads

    [_wait_for_request_slot] once more, a statement at a time, for
    threads that run it side by side on the one module state. *)











(** A call made on the one thread a [world] follows. *)
Inductive call (T : Type) : Type :=
| WaitForRequestSlot
| CallWithRateLimitAndBackoff (s : surroundings T)
| Elapse (seconds : Q).
Arguments WaitForRequestSlot {T}.
Arguments CallWithRateLimitAndBackoff {T} s.
Arguments Elapse {T} seconds.

(** Run the calls one after the other; a caller that gets an exception
    goes on with its next call.  [Elapse] is time passing in between. *)
Fixpoint run_calls {T : Type} (calls : list (call T)) (w : world)
  : world * list event :=
  match calls with
  | [] => (w, [])
  | c :: rest =>
      let '(w1, t1) :=
        match c with
        | WaitForRequestSlot =>
            let '(_, w1, t1) := _wait_for_request_slot w in (w1, t1)
        | CallWithRateLimitAndBackoff s =>
            let '(_, w1, t1) := _call_with_rate_limit_and_backoff s w in
            (w1, t1)
        | Elapse seconds => (set_clock (clock w + seconds) w, [])
        end in
      let '(w2, t2) := run_calls rest w1 in
      (w2, t1 ++ t2)
  end.


(* ================================================================== *)
(** * Reading a trace *)
(* ================================================================== *)

Definition is_invocation (e : event) : bool :=
  match e with Invoked _ => true | _ => false end.

Definition is_reservation (e : event) : bool :=
  match e with StoredNextRequestTime _ _ => true | _ => false end.

(** Calls of the operation. *)
Definition attempts (t : list event) : nat :=
  List.length (filter is_invocation t).

(** Slots taken from the rate limiter. *)
Definition reservations (t : list event) : nat :=
  List.length (filter is_reservation t).

(** The lengths of the sleeps at [site], in order. *)
Fixpoint sleeps (site : sleep_site) (t : list event) : list Q :=
  match t with
  | [] => []
  | Slept site' d :: rest =>
      match site, site' with
      | RequestSlot, RequestSlot | BackoffDelay, BackoffDelay =>
          d :: sleeps site rest
      | _, _ => sleeps site rest
      end
  | _ :: rest => sleeps site rest
  end.

Fixpoint Qsum (l : list Q) : Q :=
  match l with
  | [] => 0
  | x :: rest => x + Qsum rest
  end.

(** Every call of the operation comes after a reservation made since
    the call before it; [have] says one is at hand. *)
Fixpoint slot_before_each_attempt (have : bool) (t : list event) : bool :=
  match t with
  | [] => true
  | StoredNextRequestTime _ _ :: rest => slot_before_each_attempt true rest
  | Invoked _ :: rest => have && slot_before_each_attempt false rest
  | _ :: rest => slot_before_each_attempt have rest
  end.

(** Every write of [_next_request_time] happened with the lock held. *)
Definition stored_under_lock (e : event) : Prop :=
  match e with
  | StoredNextRequestTime _ locked => locked = true
  | _ => True
  end.

(** The backoff before retry [attempt + 1], jitter apart. *)
Definition capped_backoff (g : globals) (attempt : Z) : Q :=
  Qmin (BACKOFF_MAX_SECONDS g)
       (BACKOFF_BASE_SECONDS g * inject_Z (2 ^ attempt)).

(** [capped_backoff] summed over attempts [from], ..., [from + n - 1]. *)
Fixpoint backoff_floor (g : globals) (from : Z) (n : nat) : Q :=
  match n with
  | O => 0
  | S k => capped_backoff g from + backoff_floor g (from + 1) k
  end.

(** The retry policy the specification allows: a count that is not
    negative and durations that are not negative. *)
Definition policy_ok (g : globals) : Prop :=
  (0 <= MAX_RETRIES g)%Z /\
  0 <= BACKOFF_BASE_SECONDS g /\
  0 <= BACKOFF_MAX_SECONDS g /\
  0 <= BACKOFF_JITTER_SECONDS g.

(** [random.random()] is in [[0, 1)]. *)
Definition random_ok {T : Type} (s : surroundings T) : Prop :=
  forall n, 0 <= random s n /\ random s n < 1.

(* ================================================================== *)
(** * Worlds, traces and conditions the statements speak of *)
(* ================================================================== *)

(** ** What holds of threads in [_wait_for_request_slot] *)





(** The instant a caller arriving in [w] reserves. *)
Definition reserved_in (w : world) : Q :=
  Qmax (clock w) (_next_request_time (G w)).

(** The world the block under the lock leaves behind. *)
Definition after_reservation (w : world) : world :=
  set_lock false
    (set_G (set_next_request_time
              (reserved_in w + REQUEST_INTERVAL_SECONDS (G w)) (G w))
           (set_lock true w)).

Definition reservation_trace (w : world) : list event :=
  [ LockAcquired;
    StoredNextRequestTime (reserved_in w + REQUEST_INTERVAL_SECONDS (G w)) true;
    LockReleased ].

(** The world and the trace of one call of [_wait_for_request_slot]. *)
Definition after_wait (w : world) : world :=
  if Qlt_le_dec 0 (reserved_in w - clock w)
  then set_clock (clock w + (reserved_in w - clock w)) (after_reservation w)
  else after_reservation w.

Definition wait_trace (w : world) : list event :=
  reservation_trace w ++
  (if Qlt_le_dec 0 (reserved_in w - clock w)
   then [Slept RequestSlot (reserved_in w - clock w)]
   else []).

(** The world after the operation was called once more. *)
Definition after_operation {T : Type} (s : surroundings T) (w : world)
  : world :=
  {| G := G w; rate_limit_lock_held := rate_limit_lock_held w;
     clock := clock w + op_seconds s (op_calls w);
     op_calls := S (op_calls w); rand_calls := rand_calls w |}.

(** The world after one more value was drawn from the generator. *)
Definition after_draw (w : world) : world :=
  {| G := G w; rate_limit_lock_held := rate_limit_lock_held w;
     clock := clock w; op_calls := op_calls w;
     rand_calls := S (rand_calls w) |}.

(** The jitter [random.uniform(0.0, BACKOFF_JITTER_SECONDS)] makes of
    the value [u] of [random.random()]. *)
Definition jitter_of (g : globals) (u : Q) : Q :=
  0 + (BACKOFF_JITTER_SECONDS g - 0) * u.

(** The delay slept before retry [attempt + 1] when [random.random()]
    gave [u]. *)
Definition retry_delay (g : globals) (attempt : Z) (u : Q) : Q :=
  capped_backoff g attempt + jitter_of g u.

(** [g'] is [g] but for [_next_request_time]. *)
Definition only_schedule_written (g g' : globals) : Prop :=
  g' = set_next_request_time (_next_request_time g') g.

(** A run from [w] to [w'] with trace [t]: the policy and the interval
    are as they were, the schedule did not go back (the interval is not
    negative), and every write of it was under the lock. *)
Definition governed (w w' : world) (t : list event) : Prop :=
  only_schedule_written (G w) (G w') /\
  (0 <= REQUEST_INTERVAL_SECONDS (G w) ->
   _next_request_time (G w) <= _next_request_time (G w')) /\
  Forall stored_under_lock t.

(** The operation raises, at every call, an [Exception] that
    [_is_retriable_error] takes for retriable. *)
Definition always_retriable {T : Type} (s : surroundings T) : Prop :=
  forall n : nat,
    exists e : exn,
      operation s n = Raises e /\
      caught_by_except_Exception e = true /\
      _is_retriable_error e = true.

(** The operation of the failing run: the service answers 503 at every
    call. *)
Definition service_unavailable : exn :=
  MkExn OtherException "503 Service Unavailable".

Definition always_unavailable : surroundings nat :=
  MkSurroundings (fun _ => Raises service_unavailable)
                 (fun _ => 0) (fun _ => 0).

(** What the loop has done when it stops after [n] retries: [S n]
    calls, each after a reservation, and [n] backoffs that sum to the
    capped backoffs of the attempts or more. *)
Definition ran_out (g : globals) (attempt : Z) (n : nat) (w w' : world)
           (t : list event) : Prop :=
  attempts t = S n /\ reservations t = S n /\
  slot_before_each_attempt false t = true /\
  op_calls w' = (op_calls w + S n)%nat /\
  List.length (sleeps BackoffDelay t) = n /\
  backoff_floor g attempt n <= Qsum (sleeps BackoffDelay t).

(* ================================================================== *)
(** * The functions built on the executor *)
(* ================================================================== *)

(** A Python value that the functions below hand on as it is; an
    object they do not look into is [PyObject]. *)
Inductive pyvalue : Type :=
| PyNone
| PyStr (s : string)
| PyInt (z : Z)
| PyStrs (items : list string)
| PyObject (id : nat).

(** A value of the dictionaries built below: an attribute handed on,
    or a list of dictionaries. *)
Inductive dict_value : Type :=
| Value (v : pyvalue)
| Dicts (items : list (list (string * pyvalue))).

(** The attributes read of an [Author] and of a [Paper].  [authors] is
    a list or [None]. *)
Record Author : Type := MkAuthor {
  name : pyvalue;
  authorId : pyvalue
}.

Record Paper : Type := MkPaper {
  paperId : pyvalue;
  title : pyvalue;
  abstract : pyvalue;
  year : pyvalue;
  authors : option (list Author);
  url : pyvalue;
  venue : pyvalue;
  publicationTypes : pyvalue;
  citationCount : pyvalue;
  citations : pyvalue;
  references : pyvalue
}.

(** What a [for] over a Python object sees: the items it yields, then
    the end of the iteration or an exception (a page that cannot be
    fetched, say). *)
Record iteration (A : Type) : Type := MkIteration {
  yields : list A;
  ends_with : option exn
}.
Arguments MkIteration {A} yields ends_with.
Arguments yields {A} i.
Arguments ends_with {A} i.

(** [TypeError] of a [for] over [None]. *)
Definition TypeError_not_iterable : exn :=
  MkExn OtherException "'NoneType' object is not iterable".

(** The client: what its three methods do at the [n]-th call the
    process makes, and the seconds that call takes. *)
Record SemanticScholar : Type := MkSemanticScholar {
  search_paper : string -> Z -> nat -> outcome (iteration Paper);
  get_paper : string -> nat -> outcome Paper;
  get_author : string -> nat -> outcome Author;
  call_seconds : nat -> Q
}.

(** A method of [client] with its arguments, as the executor's
    [operation]; [rand] is the process's [random.random()]. *)
Definition bound_method {T : Type} (rand : nat -> Q)
           (client : SemanticScholar) (method : nat -> outcome T)
  : surroundings T :=
  MkSurroundings method (call_seconds client) rand.

(** A pure computation that may raise, inside [M]. *)
Definition lift {A : Type} (r : result A) : M A := fun w => (r, w, []).

(** [[f(x) for x in items]] over the items a [for] has got. *)
Fixpoint comprehension {A B : Type} (f : A -> result B) (items : list A)
  : result (list B) :=
  match items with
  | [] => Ok []
  | x :: rest =>
      match f x with
      | Raise e => Raise e
      | Ok y =>
          match comprehension f rest with
          | Raise e => Raise e
          | Ok ys => Ok (y :: ys)
          end
      end
  end.

(** [[f(x) for x in it]] *)
Definition list_comprehension {A B : Type} (f : A -> result B)
           (it : iteration A) : result (list B) :=
  match comprehension f (yields it) with
  | Raise e => Raise e
  | Ok ys =>
      match ends_with it with
      | Some e => Raise e
      | None => Ok ys
      end
  end.

(** [{"name": author.name, "authorId": author.authorId}] *)
Definition author_dict (author : Author) : list (string * pyvalue) :=
  [("name", name author); ("authorId", authorId author)]%string.

(** The dictionary [search_papers] makes of one paper, its keys in the
    order they are written. *)
Definition paper_dict (paper : Paper)
  : result (list (string * dict_value)) :=
  match authors paper with
  | None => Raise TypeError_not_iterable
  | Some l =>
      Ok [ ("paperId", Value (paperId paper));
           ("title", Value (title paper));
           ("abstract", Value (abstract paper));
           ("year", Value (year paper));
           ("authors", Dicts (map author_dict l));
           ("url", Value (url paper));
           ("venue", Value (venue paper));
           ("publicationTypes", Value (publicationTypes paper));
           ("citationCount", Value (citationCount paper)) ]%string
  end.

Section ClientFunctions.
Variable rand : nat -> Q.
Variable client : SemanticScholar.

(** [search_papers(client, query, limit)]; [limit] is [None] when the
    caller leaves it to its default. *)
Definition search_papers (query : string) (limit : option Z)
  : M (list (list (string * dict_value))) :=
  results <- _call_with_rate_limit_and_backoff
               (bound_method rand client
                  (search_paper client query (getenv limit 10%Z))) ;;
  match results with
  | None => raise TypeError_not_iterable
  | Some it => lift (list_comprehension paper_dict it)
  end.

Definition get_paper_details (paper_id : string) : M (option Paper) :=
  _call_with_rate_limit_and_backoff
    (bound_method rand client (get_paper client paper_id)).

Definition get_author_details (author_id : string) : M (option Author) :=
  _call_with_rate_limit_and_backoff
    (bound_method rand client (get_author client author_id)).

End ClientFunctions.

Definition get_citations_and_references (paper : Paper)
  : list (string * pyvalue) :=
  [("citations", citations paper); ("references", references paper)]%string.

(** [d.get(key)] for a dictionary kept as its items. *)
Fixpoint lookup {V : Type} (key : string) (d : list (string * V))
  : option V :=
  match d with
  | [] => None
  | (k, v) :: rest => if String.eqb key k then Some v else lookup key rest
  end.

(** ** [initialize_client] *)

(** [str.isspace] of an ASCII character. *)
Definition is_whitespace (c : ascii) : bool :=
  let n := nat_of_ascii c in
  ((9 <=? n)%nat && (n <=? 13)%nat) || ((28 <=? n)%nat && (n <=? 32)%nat).

Fixpoint lstrip (s : string) : string :=
  match s with
  | EmptyString => EmptyString
  | String c rest => if is_whitespace c then lstrip rest else s
  end.

Fixpoint rstrip (s : string) : string :=
  match s with
  | EmptyString => EmptyString
  | String c rest =>
      match rstrip rest with
      | EmptyString =>
          if is_whitespace c then EmptyString else String c EmptyString
      | kept => String c kept
      end
  end.

(** [str.strip()] of a string of ASCII characters. *)
Definition strip (s : string) : string := rstrip (lstrip s).

Fixpoint ascii_only (s : string) : bool :=
  match s with
  | EmptyString => true
  | String c rest => (nat_of_ascii c <? 128)%nat && ascii_only rest
  end.

Fixpoint all_whitespace (s : string) : bool :=
  match s with
  | EmptyString => true
  | String c rest => is_whitespace c && all_whitespace rest
  end.

Definition starts_with_whitespace (s : string) : bool :=
  match s with
  | EmptyString => false
  | String c _ => is_whitespace c
  end.

Fixpoint ends_with_whitespace (s : string) : bool :=
  match s with
  | EmptyString => false
  | String c EmptyString => is_whitespace c
  | String _ rest => ends_with_whitespace rest
  end.

(** The ASCII characters Python counts as whitespace, by their codes:
    tab, line feed, vertical tab, form feed, carriage return, the four
    separators and the space. *)
Definition ascii_whitespace : list nat :=
  [9; 10; 11; 12; 13; 28; 29; 30; 31; 32]%nat.

(** A string of such characters and no other. *)
Fixpoint whitespace_only (s : string) : Prop :=
  match s with
  | EmptyString => True
  | String c rest =>
      In (nat_of_ascii c) ascii_whitespace /\ whitespace_only rest
  end.

(** The arguments [SemanticScholar(...)] is built with. *)
Record client_arguments : Type := MkClientArguments {
  api_key : option string;
  retry : bool
}.

(** [initialize_client()], with [S2_API_KEY] as [os.environ] has it. *)
Definition initialize_client (S2_API_KEY : option string)
  : client_arguments :=
  let api_key := strip (getenv S2_API_KEY EmptyString) in
  match api_key with
  | EmptyString => {| api_key := None; retry := false |}
  | String _ _ => {| api_key := Some api_key; retry := false |}
  end.

(** ** More to read in a trace *)




(** The first [k] calls from the [from]-th on raise an [Exception] that
    [_is_retriable_error] takes for retriable. *)
Definition retriable_run {T : Type} (s : surroundings T) (from k : nat)
  : Prop :=
  forall i : nat,
    (i < k)%nat ->
    exists e : exn,
      operation s (from + i) = Raises e /\
      class_of e <> NotAnException /\
      _is_retriable_error e = true.

(** The durations of the retry policy are not negative. *)
Definition durations_ok (g : globals) : Prop :=
  0 <= BACKOFF_BASE_SECONDS g /\
  0 <= BACKOFF_MAX_SECONDS g /\
  0 <= BACKOFF_JITTER_SECONDS g.

(** A length [time.sleep] takes on a timer that counts nanoseconds in
    63 bits: [2^63] ns are a little more. *)
Definition timer_range_seconds : Q := 9223372036.

Definition sleep_in_timer_range (e : event) : Prop :=
  match e with
  | Slept _ seconds => seconds <= timer_range_seconds
  | _ => True
  end.

(** No sleep of the run is longer than the timer takes. *)
Definition in_timer_range (t : list event) : Prop :=
  Forall sleep_in_timer_range t.

(** A process in which every sleep of the governor fits the timer:
    the interval, the wait for the slot reserved last, and the cap
    with the jitter are within its range, and the operation takes no
    negative time on the monotonic clock. *)
Definition timer_suffices {T : Type} (s : surroundings T) (w : world)
  : Prop :=
  REQUEST_INTERVAL_SECONDS (G w) <= timer_range_seconds /\
  _next_request_time (G w) - clock w <= timer_range_seconds /\
  0 <= BACKOFF_JITTER_SECONDS (G w) /\
  BACKOFF_MAX_SECONDS (G w) + BACKOFF_JITTER_SECONDS (G w)
  <= timer_range_seconds /\
  (forall n, 0 <= op_seconds s n).

(* ================================================================== *)
(** * Failure classification *)
(* ================================================================== *)

Section Classification.
Local Open Scope string_scope.

Lemma prefix_iff_append (a b : string) :
  prefix a b = true <-> exists post, b = a ++ post.
Proof.
  revert b; induction a as [|c a IH]; intros b.
  - split; [intros _; now exists b | now destruct b].
  - destruct b as [|c' b]; simpl.
    + split; [discriminate | intros [post H]; discriminate].
    + destruct (Ascii.ascii_dec c c') as [->|Hne].
      * rewrite IH. split; intros [post H]; exists post.
        -- now rewrite H.
        -- now inversion H.
      * split; [discriminate|].
        intros [post H]. inversion H. congruence.
Qed.

Lemma contains_iff_substring (token msg : string) :
  contains token msg = true <-> substring_of token msg.
Proof.
  induction msg as [|c msg IH].
  - cbn [contains]. rewrite orb_false_r, prefix_iff_append.
    split.
    + intros [post H]. now exists "", post.
    + intros [pre [post H]]. destruct pre; [|discriminate].
      now exists post.
  - cbn [contains]. rewrite orb_true_iff, prefix_iff_append, IH.
    split.
    + intros [[post H]|[pre [post H]]].
      * now exists "", post.
      * exists (String c pre), post. simpl. now rewrite H.
    + intros [pre [post H]]. destruct pre as [|c' pre].
      * left. now exists post.
      * right. exists pre, post. simpl in H. now inversion H.
Qed.

Lemma lower_append (a b : string) : lower (a ++ b) = lower a ++ lower b.
Proof. induction a as [|c a IH]; simpl; [reflexivity | now rewrite IH]. Qed.

Lemma lower_capital (t c : ascii) :
  In (t, c) capitals -> lower_ascii c = t.
Proof.
  intros H. cbn in H.
  repeat (destruct H as [H|H]; [inversion H; reflexivity|]).
  contradiction.
Qed.

Lemma lower_ascii_cases (c : ascii) :
  c = lower_ascii c \/ In (lower_ascii c, c) capitals.
Proof.
  destruct c as [b0 b1 b2 b3 b4 b5 b6 b7].
  destruct b0, b1, b2, b3, b4, b5, b6, b7;
    first [ left; reflexivity
          | right; cbn; repeat (first [left; reflexivity | right]) ].
Qed.

(** What [str.lower] does to a spelling, and what it comes from. *)
Lemma spells_lower (token : string) :
  forall s : string, lower token = token -> spells token s -> lower s = token.
Proof.
  induction token as [|t token IH]; intros s Hlow Hs.
  - destruct s; [reflexivity | contradiction].
  - destruct s as [|c s]; [contradiction|]. destruct Hs as [Hc Hs].
    cbn [lower] in *. inversion Hlow as [[Ht Htoken]].
    rewrite Ht, Htoken. rewrite (IH s Htoken Hs). f_equal.
    destruct Hc as [->|Hc]; [exact Ht | now apply lower_capital].
Qed.

Lemma lower_spells (s : string) : spells (lower s) s.
Proof.
  induction s as [|c s IH]; [exact I|].
  cbn [lower spells]. split; [apply lower_ascii_cases | exact IH].
Qed.

Lemma lower_split (a b : string) :
  forall m : string,
    lower m = a ++ b ->
    exists m1 m2, m = m1 ++ m2 /\ lower m1 = a /\ lower m2 = b.
Proof.
  induction a as [|x a IH]; intros m H.
  - exists "", m. now repeat split.
  - destruct m as [|c m]; [discriminate|].
    cbn [lower append] in H. inversion H as [[Hc Hm]].
    destruct (IH m Hm) as [m1 [m2 [-> [H1 H2]]]].
    exists (String c m1), m2. cbn [lower append]. rewrite H1.
    now repeat split.
Qed.

Lemma retriable_tokens_lower (token : string) :
  In token retriable_tokens -> lower token = token.
Proof.
  intros Hin. cbn in Hin.
  repeat (destruct Hin as [<-|Hin]; [reflexivity|]). contradiction.
Qed.

Lemma contains_any_case_lower (token msg : string) :
  lower token = token ->
  contains_any_case token msg <-> substring_of token (lower msg).
Proof.
  intros Hlow. split.
  - intros [pre [s [post [-> Hs]]]].
    exists (lower pre), (lower post).
    now rewrite !lower_append, (spells_lower token s Hlow Hs).
  - intros [pre [post H]].
    destruct (lower_split pre (token ++ post) msg H) as [m1 [m2 [-> [_ H2]]]].
    destruct (lower_split token post m2 H2) as [s [m3 [-> [Hs _]]]].
    exists m1, s, m3. split; [reflexivity|].
    rewrite <- Hs. apply lower_spells.
Qed.

Lemma retriable_by_token (e : exn) (token : string) :
  In token retriable_tokens ->
  substring_of token (lower (message e)) ->
  _is_retriable_error e = true.
Proof.
  intros Hin Hsub. unfold _is_retriable_error.
  destruct (isinstance e [ConnectionRefusedError; TimeoutError]);
    [reflexivity|].
  destruct (isinstance e [InternalServerErrorException;
                          GatewayTimeoutException]); [reflexivity|].
  apply existsb_exists. exists token. split; [assumption|].
  now apply contains_iff_substring.
Qed.

(** C6. [_is_retriable_error] is true exactly for an error of the
    connection-refused or timeout class, of the internal-server-error or
    gateway-timeout class, or whose message in lower case contains one
    of the ten tokens: that is, whose message contains one of them with
    any of its letters written as capitals.  So it is true when the
    message contains "429", "503" or "connection reset" in any mix of
    cases, as in the three messages given, and false for a plain error
    saying "invalid argument". *)
Theorem is_retriable_error_exactly :
  (forall e : exn,
      _is_retriable_error e = true <->
      (class_of e = ConnectionRefusedError \/ class_of e = TimeoutError) \/
      (class_of e = InternalServerErrorException \/
       class_of e = GatewayTimeoutException) \/
      exists token,
        In token
           [ "429"; "too many requests"; "timed out"; "timeout";
             "connection reset"; "connection aborted";
             "temporarily unavailable"; "502"; "503"; "504" ] /\
        substring_of token (lower (message e)))
  /\ (forall e : exn,
         _is_retriable_error e = true <->
         (class_of e = ConnectionRefusedError \/ class_of e = TimeoutError) \/
         (class_of e = InternalServerErrorException \/
          class_of e = GatewayTimeoutException) \/
         exists token,
           In token
              [ "429"; "too many requests"; "timed out"; "timeout";
                "connection reset"; "connection aborted";
                "temporarily unavailable"; "502"; "503"; "504" ] /\
           contains_any_case token (message e))
  /\ (forall (e : exn) (token : string),
         In token ["429"; "503"; "connection reset"] ->
         contains_any_case token (message e) ->
         _is_retriable_error e = true)
  /\ _is_retriable_error
       (MkExn OtherException "Connection RESET by peer") = true
  /\ _is_retriable_error
       (MkExn OtherException "HTTP 429: Too Many Requests") = true
  /\ _is_retriable_error
       (MkExn OtherException "503 SERVICE UNAVAILABLE") = true
  /\ _is_retriable_error
       (MkExn OtherException "Request Timed Out") = true
  /\ _is_retriable_error (MkExn OtherException "invalid argument") = false.
Proof.
  assert (Hlower : forall e : exn,
      _is_retriable_error e = true <->
      (class_of e = ConnectionRefusedError \/ class_of e = TimeoutError) \/
      (class_of e = InternalServerErrorException \/
       class_of e = GatewayTimeoutException) \/
      exists token,
        In token retriable_tokens /\
        substring_of token (lower (message e))).
  { intros e. split.
    - unfold _is_retriable_error, isinstance.
      destruct e as [c m]; cbn [class_of message].
      destruct c; cbn [existsb exn_class_eqb orb]; intros H;
        try (left; left; reflexivity); try (left; right; reflexivity);
        try (right; left; left; reflexivity);
        try (right; left; right; reflexivity);
        right; right; apply existsb_exists in H;
        destruct H as [token [Hin Hc]]; exists token;
        (split; [exact Hin | now apply contains_iff_substring]).
    - intros [[H|H]|[[H|H]|[token [Hin Hsub]]]].
      + unfold _is_retriable_error, isinstance. now rewrite H.
      + unfold _is_retriable_error, isinstance. now rewrite H.
      + unfold _is_retriable_error, isinstance. now rewrite H.
      + unfold _is_retriable_error, isinstance. now rewrite H.
      + now apply retriable_by_token with token. }
  split; [exact Hlower|]. split; [|split].
  - intros e. rewrite (Hlower e). split.
    + intros [H|[H|[token [Hin Hsub]]]]; [now left | right; now left |].
      right; right. exists token. split; [exact Hin|].
      apply contains_any_case_lower;
        [now apply retriable_tokens_lower | exact Hsub].
    + intros [H|[H|[token [Hin Hany]]]]; [now left | right; now left |].
      right; right. exists token. split; [exact Hin|].
      apply contains_any_case_lower;
        [now apply retriable_tokens_lower | exact Hany].
  - intros e token Hin Hany.
    assert (Hin' : In token retriable_tokens)
      by (cbn in Hin; cbn; intuition).
    apply retriable_by_token with token; [exact Hin'|].
    apply contains_any_case_lower;
      [now apply retriable_tokens_lower | exact Hany].
  - repeat split.
Qed.

End Classification.

(* ================================================================== *)
(** * The rate limiter *)
(* ================================================================== *)

Lemma reserve_request_slot_eq (w : world) :
  reserve_request_slot w =
  (Ok (reserved_in w, reserved_in w - clock w),
   after_reservation w, reservation_trace w).
Proof. reflexivity. Qed.

Lemma wait_reserved_eq (d : Q) (w : world) :
  wait_reserved d w =
  if Qlt_le_dec 0 d
  then (Ok tt, set_clock (clock w + d) w, [Slept RequestSlot d])
  else (Ok tt, w, []).
Proof.
  unfold wait_reserved, sleep.
  destruct (Qlt_le_dec 0 d) as [Hpos|Hle]; [|reflexivity].
  destruct (Qlt_le_dec d 0) as [Hneg|_]; [lra | reflexivity].
Qed.

Lemma wait_for_request_slot_eq (w : world) :
  _wait_for_request_slot w = (Ok tt, after_wait w, wait_trace w).
Proof.
  unfold _wait_for_request_slot, bind. rewrite reserve_request_slot_eq.
  cbn [snd]. rewrite wait_reserved_eq. unfold after_wait, wait_trace.
  destruct (Qlt_le_dec 0 (reserved_in w - clock w)); reflexivity.
Qed.

Lemma G_after_wait (w : world) :
  G (after_wait w) =
  set_next_request_time
    (reserved_in w + REQUEST_INTERVAL_SECONDS (G w)) (G w).
Proof.
  unfold after_wait.
  destruct (Qlt_le_dec 0 (reserved_in w - clock w)); reflexivity.
Qed.

Lemma op_calls_after_wait (w : world) : op_calls (after_wait w) = op_calls w.
Proof.
  unfold after_wait.
  destruct (Qlt_le_dec 0 (reserved_in w - clock w)); reflexivity.
Qed.

Lemma rand_calls_after_wait (w : world) :
  rand_calls (after_wait w) = rand_calls w.
Proof.
  unfold after_wait.
  destruct (Qlt_le_dec 0 (reserved_in w - clock w)); reflexivity.
Qed.

Lemma clock_after_wait (w : world) : clock (after_wait w) == reserved_in w.
Proof.
  unfold after_wait.
  destruct (Qlt_le_dec 0 (reserved_in w - clock w)) as [Hpos|Hle]; cbn.
  - ring.
  - pose proof (Q.le_max_l (clock w) (_next_request_time (G w))) as Hmax.
    fold (reserved_in w) in Hmax. lra.
Qed.

Lemma reserved_in_idle (w : world) :
  _next_request_time (G w) <= clock w -> reserved_in w == clock w.
Proof.
  intros Hidle. unfold reserved_in. now apply Q.max_l.
Qed.

(** C10. When the clock has reached [_next_request_time],
    [_wait_for_request_slot] computes a wait of zero and returns without
    sleeping and without time passing; this is so for the first
    reservation of the process, where [_next_request_time] is [0.0] and
    the monotonic clock is not negative. *)
Theorem idle_gate_does_not_sleep (w : world) :
  _next_request_time (G w) <= clock w ->
  (let '(r, _, _) := reserve_request_slot w in
   exists slot, r = Ok slot /\ snd slot == 0) /\
  (let '(r, w', t) := _wait_for_request_slot w in
   r = Ok tt /\ sleeps RequestSlot t = [] /\ clock w' = clock w /\
   t = [ LockAcquired;
         StoredNextRequestTime
           (reserved_in w + REQUEST_INTERVAL_SECONDS (G w)) true;
         LockReleased ]) /\
  (forall (env : environ) (t0 : Q),
      0 <= t0 ->
      let '(r, w', t) := _wait_for_request_slot (boot env t0) in
      r = Ok tt /\ sleeps RequestSlot t = [] /\ clock w' = t0).
Proof.
  intros Hidle. split; [|split].
  - rewrite reserve_request_slot_eq. eexists. split; [reflexivity|].
    cbn [snd]. rewrite (reserved_in_idle w Hidle). ring.
  - rewrite wait_for_request_slot_eq. unfold after_wait, wait_trace.
    pose proof (reserved_in_idle w Hidle) as Hres.
    destruct (Qlt_le_dec 0 (reserved_in w - clock w)) as [Hpos|Hle];
      [lra|]. repeat split.
  - intros env t0 Ht0. rewrite wait_for_request_slot_eq.
    unfold after_wait, wait_trace.
    assert (Hres : reserved_in (boot env t0) == clock (boot env t0))
      by (apply reserved_in_idle; exact Ht0).
    destruct (Qlt_le_dec 0 (reserved_in (boot env t0) - clock (boot env t0)))
      as [Hpos|Hle]; [lra|]. repeat split.
Qed.

Lemma idle_gate_does_not_sleep_witness :
  let w := boot (MkEnviron None None None None) 7 in
  _next_request_time (G w) <= clock w /\
  (let '(r, w', t) := _wait_for_request_slot w in
   r = Ok tt /\ sleeps RequestSlot t = [] /\ clock w' = clock w /\
   t = [ LockAcquired;
         StoredNextRequestTime
           (reserved_in w + REQUEST_INTERVAL_SECONDS (G w)) true;
         LockReleased ]).
Proof.
  assert (H : _next_request_time (G (boot (MkEnviron None None None None) 7))
              <= clock (boot (MkEnviron None None None None) 7))
    by (vm_compute; discriminate).
  split; [exact H|].
  exact (proj1 (proj2 (idle_gate_does_not_sleep _ H))).
Defined.

(** ** Several callers *)

Lemma inject_Z_of_nat_succ (k : nat) :
  inject_Z (Z.of_nat (S k)) == inject_Z (Z.of_nat k) + 1.
Proof. rewrite Nat2Z.inj_succ. unfold Z.succ. now rewrite inject_Z_plus. Qed.

Lemma inject_Z_of_nat_nonneg (k : nat) : 0 <= inject_Z (Z.of_nat k).
Proof.
  change 0 with (inject_Z 0). rewrite <- Zle_Qle. apply Nat2Z.is_nonneg.
Qed.














(* ================================================================== *)
(** * Reading the trace of a reservation *)
(* ================================================================== *)

Lemma attempts_app (t1 t2 : list event) :
  attempts (t1 ++ t2) = (attempts t1 + attempts t2)%nat.
Proof. unfold attempts. now rewrite filter_app, length_app. Qed.

Lemma reservations_app (t1 t2 : list event) :
  reservations (t1 ++ t2) = (reservations t1 + reservations t2)%nat.
Proof. unfold reservations. now rewrite filter_app, length_app. Qed.

Lemma sleeps_app (site : sleep_site) (t1 t2 : list event) :
  sleeps site (t1 ++ t2) = sleeps site t1 ++ sleeps site t2.
Proof.
  induction t1 as [|e t1 IH]; [reflexivity|].
  destruct e as [| | | site' d | |]; cbn [app sleeps]; try exact IH.
  destruct site, site'; cbn [app]; now rewrite IH.
Qed.

Lemma attempts_wait_trace (w : world) : attempts (wait_trace w) = 0%nat.
Proof.
  unfold wait_trace.
  destruct (Qlt_le_dec 0 (reserved_in w - clock w)); reflexivity.
Qed.

Lemma reservations_wait_trace (w : world) :
  reservations (wait_trace w) = 1%nat.
Proof.
  unfold wait_trace.
  destruct (Qlt_le_dec 0 (reserved_in w - clock w)); reflexivity.
Qed.

Lemma backoff_sleeps_wait_trace (w : world) :
  sleeps BackoffDelay (wait_trace w) = [].
Proof.
  unfold wait_trace.
  destruct (Qlt_le_dec 0 (reserved_in w - clock w)); reflexivity.
Qed.

Lemma slot_before_wait_trace (have : bool) (w : world) (t : list event) :
  slot_before_each_attempt have (wait_trace w ++ t) =
  slot_before_each_attempt true t.
Proof.
  unfold wait_trace.
  destruct (Qlt_le_dec 0 (reserved_in w - clock w)); reflexivity.
Qed.

Lemma wait_trace_under_lock (w : world) :
  Forall stored_under_lock (wait_trace w).
Proof.
  unfold wait_trace.
  destruct (Qlt_le_dec 0 (reserved_in w - clock w));
    repeat constructor.
Qed.

(* ================================================================== *)
(** * One pass through the retry loop *)
(* ================================================================== *)

Section OnePass.
Context {T : Type}.
Variable s : surroundings T.

Lemma handle_error_eq (attempt : Z) (e : exn) (w : world) :
  handle_error s attempt e w =
  if (attempt <? MAX_RETRIES (G w))%Z && _is_retriable_error e then
    if int_fits_float (2 ^ attempt) then
      let delay :=
        capped_backoff (G w) attempt +
        jitter_of (G w) (random s (rand_calls w)) in
      if Qlt_le_dec delay 0
      then (Raise ValueError_sleep, after_draw w,
            [Warned e delay (attempt + 1) (MAX_RETRIES (G w))])
      else (Ok Continue, set_clock (clock w + delay) (after_draw w),
            [Warned e delay (attempt + 1) (MAX_RETRIES (G w));
             Slept BackoffDelay delay])
    else (Raise OverflowError, w, [])
  else (Raise e, w, []).
Proof.
  unfold handle_error, bind, global, float_times_int, float_of_int.
  destruct ((attempt <? MAX_RETRIES (G w))%Z && _is_retriable_error e);
    cbn [negb]; [|reflexivity].
  unfold bind. destruct (int_fits_float (2 ^ attempt)); [|reflexivity].
  unfold ret, random_uniform, warning, sleep, capped_backoff, jitter_of.
  cbv zeta. cbn [G rand_calls clock app].
  destruct (Qlt_le_dec _ 0); reflexivity.
Qed.

Lemma attempt_body_eq (attempt : Z) (w : world) :
  attempt_body s attempt w =
  let w1 := after_operation s (after_wait w) in
  let n := op_calls w in
  match operation s n with
  | Returns v => (Ok (Return v), w1, wait_trace w ++ [Invoked n])
  | Raises e =>
      if caught_by_except_Exception e then
        let '(r, w2, t2) := handle_error s attempt e w1 in
        (r, w2, wait_trace w ++ Invoked n :: t2)
      else (Raise e, w1, wait_trace w ++ [Invoked n])
  end.
Proof.
  unfold attempt_body, bind. rewrite wait_for_request_slot_eq.
  unfold call_operation. cbv zeta.
  change (MkWorld (G (after_wait w)) (rate_limit_lock_held (after_wait w))
            (clock (after_wait w) + op_seconds s (op_calls (after_wait w)))
            (S (op_calls (after_wait w))) (rand_calls (after_wait w)))
    with (after_operation s (after_wait w)).
  rewrite op_calls_after_wait.
  destruct (operation s (op_calls w)) as [v|e]; [reflexivity|].
  destruct (caught_by_except_Exception e); [|reflexivity].
  destruct (handle_error s attempt e _) as [[r w2] t2]. reflexivity.
Qed.

End OnePass.

(* ================================================================== *)
(** * The retrying executor: first attempt *)
(* ================================================================== *)

Section FirstAttempt.
Context {T : Type}.
Variable s : surroundings T.

Lemma for_attempts_S (k : nat) (attempt : Z) (w : world) :
  for_attempts s (S k) attempt w =
  let '(r, w1, t1) := attempt_body s attempt w in
  match r with
  | Ok (Return v) => (Ok (Some v), w1, t1)
  | Ok Continue =>
      let '(r2, w2, t2) := for_attempts s k (attempt + 1) w1 in
      (r2, w2, t1 ++ t2)
  | Raise e => (Raise e, w1, t1)
  end.
Proof.
  cbn [for_attempts]. unfold bind.
  destruct (attempt_body s attempt w) as [[[[v|]|e] w1] t1];
    cbn [ret]; [now rewrite app_nil_r | reflexivity | reflexivity].
Qed.

Lemma call_with_rate_limit_and_backoff_eq (w : world) :
  _call_with_rate_limit_and_backoff s w =
  for_attempts s (Z.to_nat (MAX_RETRIES (G w) + 1)) 0 w.
Proof.
  unfold _call_with_rate_limit_and_backoff, bind, global.
  destruct (for_attempts s _ 0 w) as [[r w2] t2]. reflexivity.
Qed.

Lemma G_after_operation (w : world) :
  G (after_operation s (after_wait w)) =
  set_next_request_time
    (reserved_in w + REQUEST_INTERVAL_SECONDS (G w)) (G w).
Proof. cbn [after_operation G]. apply G_after_wait. Qed.

Lemma op_calls_after_operation (w : world) :
  op_calls (after_operation s (after_wait w)) = S (op_calls w).
Proof. cbn [after_operation op_calls]. now rewrite op_calls_after_wait. Qed.

Lemma rand_calls_after_operation (w : world) :
  rand_calls (after_operation s (after_wait w)) = rand_calls w.
Proof. cbn [after_operation rand_calls]. apply rand_calls_after_wait. Qed.

Lemma first_pass_trace (have : bool) (w : world) :
  let t := wait_trace w ++ [Invoked (op_calls w)] in
  attempts t = 1%nat /\ reservations t = 1%nat /\
  sleeps BackoffDelay t = [] /\
  sleeps RequestSlot t = sleeps RequestSlot (wait_trace w) /\
  slot_before_each_attempt have t = true.
Proof.
  cbv zeta.
  rewrite attempts_app, reservations_app, !sleeps_app,
    attempts_wait_trace, reservations_wait_trace,
    backoff_sleeps_wait_trace, slot_before_wait_trace.
  cbn. now rewrite app_nil_r.
Qed.

(** C9. With [MAX_RETRIES] negative ([S2_MAX_RETRIES] set to "-1",
    say) the loop of [_call_with_rate_limit_and_backoff] has nothing
    to run through: the function returns [None], the operation is not
    called and no slot is taken from the rate limiter. *)
Theorem negative_max_retries_never_calls (w : world) :
  (MAX_RETRIES (G w) < 0)%Z ->
  let '(r, w', t) := _call_with_rate_limit_and_backoff s w in
  r = Ok None /\ w' = w /\ t = [] /\
  attempts t = 0%nat /\ reservations t = 0%nat.
Proof.
  intros Hneg. rewrite call_with_rate_limit_and_backoff_eq.
  replace (Z.to_nat (MAX_RETRIES (G w) + 1)) with 0%nat by lia.
  cbn. repeat split.
Qed.

(** C4. An operation that returns at its first call: whatever the
    retry policy, [_call_with_rate_limit_and_backoff] returns that
    result after one call of the operation and one reservation made
    before it, and sleeps no backoff. *)
Theorem first_success_is_returned (w : world) (v : T) :
  (0 <= MAX_RETRIES (G w))%Z ->
  operation s (op_calls w) = Returns v ->
  let '(r, w', t) := _call_with_rate_limit_and_backoff s w in
  r = Ok (Some v) /\
  t = wait_trace w ++ [Invoked (op_calls w)] /\
  attempts t = 1%nat /\ reservations t = 1%nat /\
  slot_before_each_attempt false t = true /\
  sleeps BackoffDelay t = [] /\
  op_calls w' = S (op_calls w) /\ rand_calls w' = rand_calls w.
Proof.
  intros Hmax Hop. rewrite call_with_rate_limit_and_backoff_eq.
  replace (Z.to_nat (MAX_RETRIES (G w) + 1))
    with (S (Z.to_nat (MAX_RETRIES (G w)))) by lia.
  rewrite for_attempts_S, attempt_body_eq. cbv zeta. rewrite Hop.
  destruct (first_pass_trace false w) as [Ha [Hr [Hb [_ Hs]]]].
  repeat split;
    auto using op_calls_after_operation, rand_calls_after_operation.
Qed.

(** What an error does that is not retried at [attempt]. *)
Lemma attempt_body_not_retried (attempt : Z) (w : world) (e : exn) :
  operation s (op_calls w) = Raises e ->
  (attempt <? MAX_RETRIES (G w))%Z && _is_retriable_error e = false ->
  attempt_body s attempt w =
  (Raise e, after_operation s (after_wait w),
   wait_trace w ++ [Invoked (op_calls w)]).
Proof.
  intros Hop Hno. rewrite attempt_body_eq. cbv zeta. rewrite Hop.
  destruct (caught_by_except_Exception e); [|reflexivity].
  rewrite handle_error_eq, G_after_operation.
  cbn [MAX_RETRIES set_next_request_time]. now rewrite Hno.
Qed.

(** C5. An operation whose first call raises an error that
    [_is_retriable_error] does not take for retriable:
    [_call_with_rate_limit_and_backoff] raises that very error after
    the one call, with no backoff slept.  The same happens to any
    error raised in the pass of the loop where [attempt] is
    [MAX_RETRIES]. *)
Theorem fatal_or_last_error_is_raised (w : world) (e : exn) :
  (0 <= MAX_RETRIES (G w))%Z ->
  operation s (op_calls w) = Raises e ->
  (_is_retriable_error e = false ->
   let '(r, w', t) := _call_with_rate_limit_and_backoff s w in
   r = Raise e /\
   attempts t = 1%nat /\ reservations t = 1%nat /\
   sleeps BackoffDelay t = [] /\
   op_calls w' = S (op_calls w) /\ rand_calls w' = rand_calls w) /\
  (forall k : nat,
      let '(r, w', t) := for_attempts s (S k) (MAX_RETRIES (G w)) w in
      r = Raise e /\
      attempts t = 1%nat /\ reservations t = 1%nat /\
      sleeps BackoffDelay t = [] /\
      op_calls w' = S (op_calls w) /\ rand_calls w' = rand_calls w).
Proof.
  intros Hmax Hop.
  destruct (first_pass_trace false w) as [Ha [Hr [Hb [_ Hs]]]].
  split.
  - intros Hfatal. rewrite call_with_rate_limit_and_backoff_eq.
    replace (Z.to_nat (MAX_RETRIES (G w) + 1))
      with (S (Z.to_nat (MAX_RETRIES (G w)))) by lia.
    rewrite for_attempts_S, (attempt_body_not_retried 0 w e Hop).
    + repeat split;
        auto using op_calls_after_operation, rand_calls_after_operation.
    + rewrite Hfatal. apply andb_false_r.
  - intros k.
    rewrite for_attempts_S,
      (attempt_body_not_retried (MAX_RETRIES (G w)) w e Hop).
    + repeat split;
        auto using op_calls_after_operation, rand_calls_after_operation.
    + now rewrite Z.ltb_irrefl.
Qed.

End FirstAttempt.

Lemma negative_max_retries_never_calls_witness :
  let s := MkSurroundings (fun _ => Returns 42%nat) (fun _ => 1 # 2)
                          (fun _ => 1 # 2) in
  let w := boot (MkEnviron (Some (-1)%Z) None None None) 100 in
  _call_with_rate_limit_and_backoff s w = (Ok None, w, []).
Proof.
  cbv zeta.
  pose proof (negative_max_retries_never_calls
                (MkSurroundings (fun _ => Returns 42%nat) (fun _ => 1 # 2)
                                (fun _ => 1 # 2))
                (boot (MkEnviron (Some (-1)%Z) None None None) 100)
                eq_refl) as H.
  destruct (_call_with_rate_limit_and_backoff _ _) as [[r w'] t].
  destruct H as [-> [-> [-> _]]]. reflexivity.
Defined.

Lemma first_success_is_returned_witness :
  let s := MkSurroundings (fun _ => Returns 42%nat) (fun _ => 1 # 2)
                          (fun _ => 1 # 2) in
  let w := boot (MkEnviron (Some 0%Z) None None None) 100 in
  let '(r, _, t) := _call_with_rate_limit_and_backoff s w in
  r = Ok (Some 42%nat) /\ attempts t = 1%nat /\ reservations t = 1%nat.
Proof.
  cbv zeta.
  pose proof (first_success_is_returned
                (MkSurroundings (fun _ => Returns 42%nat) (fun _ => 1 # 2)
                                (fun _ => 1 # 2))
                (boot (MkEnviron (Some 0%Z) None None None) 100) 42%nat
                ltac:(vm_compute; discriminate) eq_refl) as H.
  destruct (_call_with_rate_limit_and_backoff _ _) as [[r w'] t].
  destruct H as [Hr [_ [Ha [Hres _]]]]. now repeat split.
Defined.

Lemma fatal_or_last_error_is_raised_witness :
  let e := MkExn OtherException "invalid argument" in
  let s := MkSurroundings (fun _ => @Raises nat e) (fun _ => 1 # 2)
                          (fun _ => 1 # 2) in
  let w := boot (MkEnviron None None None None) 100 in
  let '(r, _, t) := _call_with_rate_limit_and_backoff s w in
  r = Raise e /\ attempts t = 1%nat /\ sleeps BackoffDelay t = [].
Proof.
  cbv zeta.
  pose proof (proj1 (fatal_or_last_error_is_raised
                (MkSurroundings
                   (fun _ => @Raises nat
                               (MkExn OtherException "invalid argument"))
                   (fun _ => 1 # 2) (fun _ => 1 # 2))
                (boot (MkEnviron None None None None) 100)
                (MkExn OtherException "invalid argument")
                ltac:(vm_compute; discriminate) eq_refl) eq_refl) as H.
  destruct (_call_with_rate_limit_and_backoff _ _) as [[r w'] t].
  destruct H as [Hr [Ha [_ [Hb _]]]]. now repeat split.
Defined.

(* ================================================================== *)
(** * What any pass through the loop does *)
(* ================================================================== *)

Section AnyPass.
Context {T : Type}.
Variable s : surroundings T.

Lemma slot_before_pass (have : bool) (w : world) (n : nat)
      (t' rest : list event) :
  Forall (fun e => is_invocation e = false /\ is_reservation e = false) t' ->
  slot_before_each_attempt have ((wait_trace w ++ Invoked n :: t') ++ rest) =
  slot_before_each_attempt false rest.
Proof.
  intros Hquiet. rewrite <- app_assoc, slot_before_wait_trace.
  cbn [app slot_before_each_attempt andb].
  induction Hquiet as [|e t' [Hi Hr] _ IH]; [reflexivity|].
  destruct e; try discriminate; exact IH.
Qed.

Lemma pass_under_lock (w : world) (n : nat) (t' : list event) :
  Forall stored_under_lock t' ->
  Forall stored_under_lock (wait_trace w ++ Invoked n :: t').
Proof.
  intros Ht'. apply Forall_app.
  split; [apply wait_trace_under_lock | now constructor].
Qed.

Lemma pass_attempts (w : world) (n : nat) (t' : list event) :
  attempts t' = 0%nat ->
  attempts (wait_trace w ++ Invoked n :: t') = 1%nat.
Proof.
  intros Ha. rewrite attempts_app, attempts_wait_trace.
  unfold attempts in *. cbn [filter is_invocation List.length].
  now rewrite Ha.
Qed.

Lemma pass_reservations (w : world) (n : nat) (t' : list event) :
  reservations t' = 0%nat ->
  reservations (wait_trace w ++ Invoked n :: t') = 1%nat.
Proof.
  intros Hr. rewrite reservations_app, reservations_wait_trace.
  unfold reservations in *. cbn [filter is_reservation]. now rewrite Hr.
Qed.

Lemma pass_backoff_sleeps (w : world) (n : nat) (t' : list event) :
  sleeps BackoffDelay (wait_trace w ++ Invoked n :: t') =
  sleeps BackoffDelay t'.
Proof. now rewrite sleeps_app, backoff_sleeps_wait_trace. Qed.

Ltac pass_facts :=
  repeat split;
  first
    [ apply G_after_wait
    | apply op_calls_after_operation
    | apply rand_calls_after_operation
    | apply pass_under_lock; repeat constructor
    | apply pass_attempts; reflexivity
    | apply pass_reservations; reflexivity
    | intros; apply slot_before_pass; repeat constructor; reflexivity
    | rewrite pass_backoff_sleeps; reflexivity
    | cbn [after_draw set_clock rand_calls];
      rewrite rand_calls_after_operation; reflexivity
    | reflexivity ].

(** One pass, whatever the operation does: the only global written
    is [_next_request_time], by the reservation and under the lock;
    the operation is called once, after one reservation; a backoff is
    slept exactly when the loop goes on, and it is [retry_delay]. *)
Lemma attempt_body_pass (attempt : Z) (w : world) :
  let '(r, w', t) := attempt_body s attempt w in
  G w' = G (after_wait w) /\
  op_calls w' = S (op_calls w) /\
  Forall stored_under_lock t /\
  attempts t = 1%nat /\ reservations t = 1%nat /\
  (forall have rest,
      slot_before_each_attempt have (t ++ rest) =
      slot_before_each_attempt false rest) /\
  match r with
  | Ok Continue =>
      rand_calls w' = S (rand_calls w) /\
      sleeps BackoffDelay t =
      [retry_delay (G w) attempt (random s (rand_calls w))]
  | _ => sleeps BackoffDelay t = []
  end.
Proof.
  rewrite attempt_body_eq. cbv zeta.
  destruct (operation s (op_calls w)) as [v|e]; [pass_facts|].
  destruct (caught_by_except_Exception e); [|pass_facts].
  rewrite handle_error_eq, G_after_operation.
  cbn [MAX_RETRIES set_next_request_time].
  destruct ((attempt <? MAX_RETRIES (G w))%Z && _is_retriable_error e);
    [|pass_facts].
  destruct (int_fits_float (2 ^ attempt)); [|pass_facts].
  cbv zeta. rewrite rand_calls_after_operation.
  change (capped_backoff
            (set_next_request_time
               (reserved_in w + REQUEST_INTERVAL_SECONDS (G w)) (G w))
            attempt +
          jitter_of
            (set_next_request_time
               (reserved_in w + REQUEST_INTERVAL_SECONDS (G w)) (G w))
            (random s (rand_calls w)))
    with (retry_delay (G w) attempt (random s (rand_calls w))).
  destruct (Qlt_le_dec _ 0); pass_facts.
Qed.

End AnyPass.

(* ================================================================== *)
(** * What a run may change *)
(* ================================================================== *)

Lemma only_schedule_written_refl (g : globals) : only_schedule_written g g.
Proof. now destruct g. Qed.

Lemma only_schedule_written_trans (g1 g2 g3 : globals) :
  only_schedule_written g1 g2 -> only_schedule_written g2 g3 ->
  only_schedule_written g1 g3.
Proof.
  unfold only_schedule_written. intros H12 H23.
  rewrite H23. rewrite H12. reflexivity.
Qed.

Lemma governed_refl (w : world) : governed w w [].
Proof.
  split; [apply only_schedule_written_refl | split; [lra | constructor]].
Qed.

Lemma governed_trans (w1 w2 w3 : world) (t12 t23 : list event) :
  governed w1 w2 t12 -> governed w2 w3 t23 -> governed w1 w3 (t12 ++ t23).
Proof.
  intros [Hg12 [Hn12 Hl12]] [Hg23 [Hn23 Hl23]].
  split; [now apply only_schedule_written_trans with (G w2)|].
  split; [|apply Forall_app; now split].
  intros HI. specialize (Hn12 HI).
  assert (HI2 : 0 <= REQUEST_INTERVAL_SECONDS (G w2))
    by (rewrite Hg12; exact HI).
  specialize (Hn23 HI2). lra.
Qed.

Lemma governed_same_G (w w' : world) :
  G w' = G w -> governed w w' [].
Proof.
  intros HG. unfold governed. rewrite HG.
  split; [apply only_schedule_written_refl | split; [lra | constructor]].
Qed.

(** A reservation, seen from the world it started in. *)
Lemma governed_reservation (w w' : world) (t : list event) :
  G w' = G (after_wait w) -> Forall stored_under_lock t -> governed w w' t.
Proof.
  intros HG Hl. unfold governed. rewrite HG, G_after_wait.
  split; [reflexivity | split; [|exact Hl]].
  intros HI. cbn [_next_request_time set_next_request_time].
  pose proof (Q.le_max_r (clock w) (_next_request_time (G w))) as Hr.
  fold (reserved_in w) in Hr. lra.
Qed.

Section AnyRun.
Context {T : Type}.

Lemma for_attempts_governed (s : surroundings T) (n : nat) :
  forall (attempt : Z) (w : world),
    let '(_, w', t) := for_attempts s n attempt w in governed w w' t.
Proof.
  induction n as [|k IH]; intros attempt w.
  - cbn. apply governed_refl.
  - rewrite for_attempts_S.
    pose proof (attempt_body_pass s attempt w) as Hpass.
    destruct (attempt_body s attempt w) as [[r w1] t1].
    destruct Hpass as [HG [_ [Hl _]]].
    pose proof (governed_reservation w w1 t1 HG Hl) as H1.
    destruct r as [[v|]|e]; try exact H1.
    specialize (IH (attempt + 1)%Z w1).
    destruct (for_attempts s k (attempt + 1) w1) as [[r2 w2] t2].
    now apply governed_trans with w1.
Qed.

Lemma run_calls_governed (calls : list (call T)) :
  forall w : world,
    let '(w', t) := run_calls calls w in governed w w' t.
Proof.
  induction calls as [|c rest IH]; intros w.
  - cbn. apply governed_refl.
  - cbn [run_calls].
    assert (H1 : let '(w1, t1) :=
                   match c with
                   | WaitForRequestSlot =>
                       let '(_, w1, t1) := _wait_for_request_slot w in
                       (w1, t1)
                   | CallWithRateLimitAndBackoff s =>
                       let '(_, w1, t1) :=
                         _call_with_rate_limit_and_backoff s w in (w1, t1)
                   | Elapse seconds => (set_clock (clock w + seconds) w, [])
                   end in governed w w1 t1).
    { destruct c as [|s|seconds].
      - rewrite wait_for_request_slot_eq.
        apply governed_reservation;
          [reflexivity | apply wait_trace_under_lock].
      - rewrite call_with_rate_limit_and_backoff_eq.
        pose proof (for_attempts_governed s
                      (Z.to_nat (MAX_RETRIES (G w) + 1)) 0 w) as H.
        now destruct (for_attempts s _ 0 w) as [[r w1] t1].
      - now apply governed_same_G. }
    destruct (match c with
              | WaitForRequestSlot => _
              | CallWithRateLimitAndBackoff s => _
              | Elapse seconds => _
              end) as [w1 t1].
    specialize (IH w1). destruct (run_calls rest w1) as [w2 t2].
    now apply governed_trans with w1.
Qed.

Lemma run_calls_app (calls calls' : list (call T)) :
  forall w : world,
    run_calls (calls ++ calls') w =
    let '(w1, t1) := run_calls calls w in
    let '(w2, t2) := run_calls calls' w1 in
    (w2, t1 ++ t2).
Proof.
  induction calls as [|c rest IH]; intros w.
  - cbn. now destruct (run_calls calls' w).
  - cbn [app run_calls].
    destruct (match c with
              | WaitForRequestSlot => _
              | CallWithRateLimitAndBackoff s => _
              | Elapse seconds => _
              end) as [w1 t1].
    rewrite IH. destruct (run_calls rest w1) as [w2 t2].
    destruct (run_calls calls' w2) as [w3 t3].
    now rewrite app_assoc.
Qed.

(** C2. [_next_request_time] does not go back: a call of
    [_wait_for_request_slot] sets it to [max(now, previous) + interval],
    one interval above the instant it reserves; over any calls of the
    limiter and the executor its value after more calls is not below
    its value after fewer; and every write of it is made with
    [_rate_limit_lock] held. *)
Theorem next_request_time_only_advances
        (calls calls' : list (call T)) (w : world) :
  REQUEST_INTERVAL_SECONDS (G w) = 1 ->
  (let '(_, w1, _) := _wait_for_request_slot w in
   _next_request_time (G w1) =
   Qmax (clock w) (_next_request_time (G w)) + REQUEST_INTERVAL_SECONDS (G w) /\
   _next_request_time (G w) <= _next_request_time (G w1)) /\
  (let '(w1, _) := run_calls calls w in
   let '(w2, t) := run_calls (calls ++ calls') w in
   _next_request_time (G w) <= _next_request_time (G w1) /\
   _next_request_time (G w1) <= _next_request_time (G w2) /\
   Forall stored_under_lock t).
Proof.
  intros HI. split.
  - rewrite wait_for_request_slot_eq, G_after_wait.
    cbn [_next_request_time set_next_request_time].
    split; [reflexivity|]. rewrite HI.
    pose proof (Q.le_max_r (clock w) (_next_request_time (G w))). 
    unfold reserved_in. lra.
  - rewrite run_calls_app.
    pose proof (run_calls_governed calls w) as H1.
    destruct (run_calls calls w) as [w1 t1].
    pose proof (run_calls_governed calls' w1) as H2.
    destruct (run_calls calls' w1) as [w2 t2].
    pose proof (governed_trans _ _ _ _ _ H1 H2) as [_ [_ Hl]].
    destruct H1 as [Hg1 [Hn1 _]], H2 as [_ [Hn2 _]].
    assert (HI1 : 0 <= REQUEST_INTERVAL_SECONDS (G w)) by (rewrite HI; lra).
    assert (HI2 : 0 <= REQUEST_INTERVAL_SECONDS (G w1))
      by (rewrite Hg1; exact HI1).
    auto.
Qed.

(** C8. Over any calls of the limiter and the executor, the retry
    policy ([MAX_RETRIES], the backoff base, cap and jitter) and the
    interval keep the values the import gave them: the one global a
    call writes is [_next_request_time]. *)
Theorem policy_and_interval_are_never_written
        (calls : list (call T)) (w : world) :
  (let '(w', _) := run_calls calls w in
   REQUEST_INTERVAL_SECONDS (G w') = REQUEST_INTERVAL_SECONDS (G w) /\
   MAX_RETRIES (G w') = MAX_RETRIES (G w) /\
   BACKOFF_BASE_SECONDS (G w') = BACKOFF_BASE_SECONDS (G w) /\
   BACKOFF_MAX_SECONDS (G w') = BACKOFF_MAX_SECONDS (G w) /\
   BACKOFF_JITTER_SECONDS (G w') = BACKOFF_JITTER_SECONDS (G w) /\
   G w' = set_next_request_time (_next_request_time (G w')) (G w)) /\
  (forall (env : environ) (t0 : Q),
      let '(w', _) := run_calls calls (boot env t0) in
      G w' =
      set_next_request_time (_next_request_time (G w')) (module_globals env)).
Proof.
  split.
  - pose proof (run_calls_governed calls w) as H.
    destruct (run_calls calls w) as [w' t]. destruct H as [Hg _].
    repeat split; rewrite Hg; reflexivity.
  - intros env t0.
    pose proof (run_calls_governed calls (boot env t0)) as H.
    destruct (run_calls calls (boot env t0)) as [w' t].
    destruct H as [Hg _]. exact Hg.
Qed.

End AnyRun.

Lemma next_request_time_only_advances_witness :
  let s := MkSurroundings
             (fun n => if (n <? 2)%nat then Raises service_unavailable
                       else Returns 42%nat)
             (fun _ => 1 # 10) (fun _ => 1 # 2) in
  let calls := [WaitForRequestSlot; CallWithRateLimitAndBackoff s] in
  let calls' := [Elapse 3; WaitForRequestSlot] in
  let w := boot (MkEnviron (Some 2%Z) None None None) 100 in
  let '(w1, _) := run_calls calls w in
  let '(w2, t) := run_calls (calls ++ calls') w in
  _next_request_time (G w) <= _next_request_time (G w1) /\
  _next_request_time (G w1) <= _next_request_time (G w2) /\
  Forall stored_under_lock t.
Proof.
  cbv zeta.
  pose proof (next_request_time_only_advances
    [WaitForRequestSlot;
     CallWithRateLimitAndBackoff
       (MkSurroundings
          (fun n => if (n <? 2)%nat then Raises service_unavailable
                    else Returns 42%nat)
          (fun _ => 1 # 10) (fun _ => 1 # 2))]
    [Elapse 3; WaitForRequestSlot]
    (boot (MkEnviron (Some 2%Z) None None None) 100) eq_refl) as H.
  destruct H as [_ H]. exact H.
Defined.

(* ================================================================== *)
(** * Backoff *)
(* ================================================================== *)

Lemma policy_of_written (g g' : globals) :
  only_schedule_written g g' ->
  MAX_RETRIES g' = MAX_RETRIES g /\
  BACKOFF_BASE_SECONDS g' = BACKOFF_BASE_SECONDS g /\
  BACKOFF_MAX_SECONDS g' = BACKOFF_MAX_SECONDS g /\
  BACKOFF_JITTER_SECONDS g' = BACKOFF_JITTER_SECONDS g.
Proof. intros ->. repeat split. Qed.

Lemma retry_delay_written (g g' : globals) (attempt : Z) (u : Q) :
  only_schedule_written g g' ->
  retry_delay g' attempt u = retry_delay g attempt u.
Proof. intros ->. reflexivity. Qed.

Lemma capped_backoff_written (g g' : globals) (attempt : Z) :
  only_schedule_written g g' ->
  capped_backoff g' attempt = capped_backoff g attempt.
Proof. intros ->. reflexivity. Qed.

Lemma written_by_pass (g : globals) (w w1 : world) :
  only_schedule_written g (G w) -> G w1 = G (after_wait w) ->
  only_schedule_written g (G w1).
Proof.
  intros Hg HG. apply only_schedule_written_trans with (G w); [exact Hg|].
  rewrite HG, G_after_wait. reflexivity.
Qed.

(** The jitter is between [0] and [BACKOFF_JITTER_SECONDS]. *)
Lemma jitter_of_bounds (g : globals) (u : Q) :
  0 <= BACKOFF_JITTER_SECONDS g -> 0 <= u -> u <= 1 ->
  0 <= jitter_of g u /\ jitter_of g u <= BACKOFF_JITTER_SECONDS g.
Proof.
  intros HJ Hu0 Hu1. unfold jitter_of.
  pose proof (Qmult_le_0_compat _ _ HJ Hu0) as Hlo.
  assert (Hhi : BACKOFF_JITTER_SECONDS g * u <= BACKOFF_JITTER_SECONDS g * 1).
  { destruct (Qlt_le_dec 0 (BACKOFF_JITTER_SECONDS g)) as [Hpos|Hz].
    - now apply Qmult_le_l.
    - assert (Hz0 : BACKOFF_JITTER_SECONDS g == 0) by lra.
      rewrite Hz0. lra. }
  split; lra.
Qed.

Lemma capped_backoff_le_cap (g : globals) (attempt : Z) :
  capped_backoff g attempt <= BACKOFF_MAX_SECONDS g.
Proof. unfold capped_backoff. apply Q.le_min_l. Qed.

Lemma capped_backoff_nonneg (g : globals) (attempt : Z) :
  0 <= BACKOFF_BASE_SECONDS g -> 0 <= BACKOFF_MAX_SECONDS g ->
  0 <= capped_backoff g attempt.
Proof.
  intros Hb Hc. unfold capped_backoff. apply Q.min_glb; [exact Hc|].
  apply Qmult_le_0_compat; [exact Hb|].
  change 0 with (inject_Z 0). rewrite <- Zle_Qle.
  apply Z.pow_nonneg. lia.
Qed.

Section Backoff.
Context {T : Type}.
Variable s : surroundings T.

(** The backoff sleeps of the loop, one by one: the [i]-th is the
    delay of attempt [attempt + i], with the [i]-th value drawn. *)
Lemma for_attempts_backoff_sleeps (g : globals) (n : nat) :
  forall (attempt : Z) (w : world),
    only_schedule_written g (G w) ->
    let '(_, _, t) := for_attempts s n attempt w in
    forall (i : nat) (d : Q),
      nth_error (sleeps BackoffDelay t) i = Some d ->
      d = retry_delay g (attempt + Z.of_nat i)
                      (random s (rand_calls w + i)).
Proof.
  induction n as [|k IH]; intros attempt w Hg.
  - cbn. intros i d Hi. destruct i; discriminate.
  - rewrite for_attempts_S.
    pose proof (attempt_body_pass s attempt w) as Hpass.
    destruct (attempt_body s attempt w) as [[r w1] t1].
    destruct Hpass as [HG [_ [_ [_ [_ [_ Hsl]]]]]].
    destruct r as [[v|]|e].
    + rewrite Hsl. intros i d Hi. destruct i; discriminate.
    + destruct Hsl as [Hrand Hsl].
      specialize (IH (attempt + 1)%Z w1 (written_by_pass g w w1 Hg HG)).
      destruct (for_attempts s k (attempt + 1) w1) as [[r2 w2] t2].
      rewrite sleeps_app, Hsl. intros i d Hi.
      destruct i as [|i]; cbn [app nth_error] in Hi.
      * inversion Hi. rewrite (retry_delay_written g (G w) _ _ Hg).
        now rewrite Z.add_0_r, Nat.add_0_r.
      * rewrite (IH i d Hi), Hrand. f_equal; [lia|f_equal; lia].
    + rewrite Hsl. intros i d Hi. destruct i; discriminate.
Qed.

(** C7. In any run of [_call_with_rate_limit_and_backoff], the
    backoff slept before retry [i + 1] is
    [min(BACKOFF_MAX_SECONDS, BACKOFF_BASE_SECONDS * 2^i)] plus a
    jitter between [0] and [BACKOFF_JITTER_SECONDS], so it is never
    above [BACKOFF_MAX_SECONDS + BACKOFF_JITTER_SECONDS], whatever
    [i] is. *)
Theorem backoff_delay_is_capped (w : world) :
  0 <= BACKOFF_JITTER_SECONDS (G w) ->
  random_ok s ->
  let '(_, _, t) := _call_with_rate_limit_and_backoff s w in
  forall (i : nat) (d : Q),
    nth_error (sleeps BackoffDelay t) i = Some d ->
    exists jitter : Q,
      0 <= jitter /\ jitter <= BACKOFF_JITTER_SECONDS (G w) /\
      d = Qmin (BACKOFF_MAX_SECONDS (G w))
               (BACKOFF_BASE_SECONDS (G w) * inject_Z (2 ^ Z.of_nat i))
          + jitter /\
      d <= BACKOFF_MAX_SECONDS (G w) + BACKOFF_JITTER_SECONDS (G w).
Proof.
  intros HJ Hrand. rewrite call_with_rate_limit_and_backoff_eq.
  pose proof (for_attempts_backoff_sleeps (G w)
                (Z.to_nat (MAX_RETRIES (G w) + 1)) 0 w
                (only_schedule_written_refl (G w))) as Hloop.
  destruct (for_attempts s _ 0 w) as [[r w'] t].
  intros i d Hi. rewrite (Hloop i d Hi). cbn [Z.add].
  destruct (Hrand (rand_calls w + i)%nat) as [Hu0 Hu1].
  destruct (jitter_of_bounds (G w) (random s (rand_calls w + i)) HJ Hu0)
    as [Hj0 Hj1]; [lra|].
  pose proof (capped_backoff_le_cap (G w) (Z.of_nat i)) as Hcap.
  exists (jitter_of (G w) (random s (rand_calls w + i))).
  unfold retry_delay in *. unfold capped_backoff at 1.
  repeat split; try assumption. lra.
Qed.

End Backoff.

Lemma backoff_delay_is_capped_witness :
  let s := MkSurroundings
             (fun _ => @Raises nat
                         (MkExn OtherException "503 Service Unavailable"))
             (fun _ => 1 # 10) (fun _ => 1 # 2) in
  let w := boot (MkEnviron (Some 7%Z) None (Some 4) None) 100 in
  let '(_, _, t) := _call_with_rate_limit_and_backoff s w in
  List.length (sleeps BackoffDelay t) = 7%nat /\
  forall (i : nat) (d : Q),
    nth_error (sleeps BackoffDelay t) i = Some d ->
    exists jitter : Q,
      0 <= jitter /\ jitter <= BACKOFF_JITTER_SECONDS (G w) /\
      d = Qmin (BACKOFF_MAX_SECONDS (G w))
               (BACKOFF_BASE_SECONDS (G w) * inject_Z (2 ^ Z.of_nat i))
          + jitter /\
      d <= BACKOFF_MAX_SECONDS (G w) + BACKOFF_JITTER_SECONDS (G w).
Proof.
  cbv zeta.
  pose proof (backoff_delay_is_capped
    (MkSurroundings
       (fun _ => @Raises nat (MkExn OtherException "503 Service Unavailable"))
       (fun _ => 1 # 10) (fun _ => 1 # 2))
    (boot (MkEnviron (Some 7%Z) None (Some 4) None) 100)
    ltac:(vm_compute; discriminate)
    ltac:(intros n; split; vm_compute; [discriminate | reflexivity])) as H.
  destruct (_call_with_rate_limit_and_backoff _ _) as [[r w'] t] eqn:Hrun.
  split; [|exact H].
  vm_compute in Hrun. inversion Hrun. reflexivity.
Defined.

(* ================================================================== *)
(** * Retries run out *)
(* ================================================================== *)

Lemma pow2_fits_float (a : Z) :
  (0 <= a < 1024)%Z -> int_fits_float (2 ^ a) = true.
Proof.
  intros Ha. unfold int_fits_float. apply Z.ltb_lt.
  rewrite Z.abs_eq by (apply Z.pow_nonneg; lia).
  apply Z.le_lt_trans with (2 ^ 1023)%Z.
  - apply Z.pow_le_mono_r; lia.
  - vm_compute. reflexivity.
Qed.

Lemma pow2_overflows_float (a : Z) :
  (1024 <= a)%Z -> int_fits_float (2 ^ a) = false.
Proof.
  intros Ha. unfold int_fits_float. apply Z.ltb_ge.
  rewrite Z.abs_eq by (apply Z.pow_nonneg; lia).
  apply Z.le_trans with (2 ^ 1024)%Z.
  - vm_compute. discriminate.
  - apply Z.pow_le_mono_r; lia.
Qed.

Section RetriesRunOut.
Context {T : Type}.
Variable s : surroundings T.
Variable g : globals.
Hypothesis policy : policy_ok g.
Hypothesis draws : random_ok s.
Hypothesis failing : always_retriable s.

Lemma retry_delay_bounds (attempt : Z) (n : nat) :
  0 <= capped_backoff g attempt /\
  capped_backoff g attempt <= retry_delay g attempt (random s n).
Proof.
  destruct policy as [_ [Hb [Hc HJ]]]. destruct (draws n) as [Hu0 Hu1].
  destruct (jitter_of_bounds g (random s n) HJ Hu0) as [Hj0 _]; [lra|].
  pose proof (capped_backoff_nonneg g attempt Hb Hc).
  unfold retry_delay. split; lra.
Qed.

(** A pass before the last one, within the float range: the loop
    goes on. *)
Lemma attempt_body_retried (attempt : Z) (w : world) :
  only_schedule_written g (G w) ->
  (0 <= attempt < MAX_RETRIES g)%Z -> (attempt < 1024)%Z ->
  exists w1 t1, attempt_body s attempt w = (Ok Continue, w1, t1).
Proof.
  intros Hg Hlt Hfloat. rewrite attempt_body_eq. cbv zeta.
  destruct (failing (op_calls w)) as [e [-> [-> Hretry]]].
  rewrite handle_error_eq, G_after_operation.
  cbn [MAX_RETRIES set_next_request_time].
  destruct (policy_of_written g (G w) Hg) as [-> _].
  replace (attempt <? MAX_RETRIES g)%Z with true
    by (symmetry; apply Z.ltb_lt; lia).
  rewrite Hretry, pow2_fits_float by lia. cbn [andb]. cbv zeta.
  rewrite rand_calls_after_operation.
  change (capped_backoff
            (set_next_request_time
               (reserved_in w + REQUEST_INTERVAL_SECONDS (G w)) (G w))
            attempt +
          jitter_of
            (set_next_request_time
               (reserved_in w + REQUEST_INTERVAL_SECONDS (G w)) (G w))
            (random s (rand_calls w)))
    with (retry_delay (G w) attempt (random s (rand_calls w))).
  rewrite (retry_delay_written g (G w) _ _ Hg).
  destruct (retry_delay_bounds attempt (rand_calls w)) as [H0 H1].
  destruct (Qlt_le_dec _ 0) as [Hneg|_]; [lra|].
  eexists; eexists; reflexivity.
Qed.

(** The pass where [attempt] has reached [MAX_RETRIES]. *)
Lemma attempt_body_last (w : world) :
  only_schedule_written g (G w) ->
  exists e,
    operation s (op_calls w) = Raises e /\
    attempt_body s (MAX_RETRIES g) w =
    (Raise e, after_operation s (after_wait w),
     wait_trace w ++ [Invoked (op_calls w)]).
Proof.
  intros Hg. destruct (failing (op_calls w)) as [e [Hop _]].
  exists e. split; [exact Hop|].
  apply attempt_body_not_retried; [exact Hop|].
  destruct (policy_of_written g (G w) Hg) as [-> _].
  now rewrite Z.ltb_irrefl.
Qed.

(** The pass where [2 ** attempt] leaves the float range. *)
Lemma attempt_body_overflow (attempt : Z) (w : world) :
  only_schedule_written g (G w) ->
  (1024 <= attempt < MAX_RETRIES g)%Z ->
  attempt_body s attempt w =
  (Raise OverflowError, after_operation s (after_wait w),
   wait_trace w ++ [Invoked (op_calls w)]).
Proof.
  intros Hg Hlt. rewrite attempt_body_eq. cbv zeta.
  destruct (failing (op_calls w)) as [e [-> [-> Hretry]]].
  rewrite handle_error_eq, G_after_operation.
  cbn [MAX_RETRIES set_next_request_time].
  destruct (policy_of_written g (G w) Hg) as [-> _].
  replace (attempt <? MAX_RETRIES g)%Z with true
    by (symmetry; apply Z.ltb_lt; lia).
  rewrite Hretry, pow2_overflows_float by lia. reflexivity.
Qed.

Lemma ran_out_last (attempt : Z) (w : world) :
  ran_out g attempt 0 w (after_operation s (after_wait w))
          (wait_trace w ++ [Invoked (op_calls w)]).
Proof.
  destruct (first_pass_trace false w) as [Ha [Hr [Hb [_ Hs]]]].
  unfold ran_out. rewrite Ha, Hr, Hb, Hs, op_calls_after_operation.
  repeat split; try lia. cbn. lra.
Qed.

Lemma ran_out_step (attempt : Z) (n : nat) (w w1 w2 : world)
      (t1 t2 : list event) :
  only_schedule_written g (G w) ->
  attempt_body s attempt w = (Ok Continue, w1, t1) ->
  ran_out g (attempt + 1) n w1 w2 t2 ->
  ran_out g attempt (S n) w w2 (t1 ++ t2).
Proof.
  intros Hg Hbody [Ha [Hr [Hs [Hop [Hlen Hsum]]]]].
  pose proof (attempt_body_pass s attempt w) as Hpass.
  rewrite Hbody in Hpass.
  destruct Hpass as [_ [Hop1 [_ [Ha1 [Hr1 [Hs1 [_ Hsl1]]]]]]].
  unfold ran_out.
  rewrite attempts_app, reservations_app, sleeps_app, Hs1, Ha1, Hr1,
    Ha, Hr, Hs, Hop, Hop1, Hsl1.
  rewrite (retry_delay_written g (G w) _ _ Hg).
  cbn [app List.length Qsum backoff_floor]. rewrite Hlen.
  destruct (retry_delay_bounds attempt (rand_calls w)) as [_ Hd].
  repeat split; try lia. lra.
Qed.

(** The loop from [attempt], with [n] retries left before [attempt]
    is [MAX_RETRIES], all of them within the float range. *)
Lemma for_attempts_runs_out (n : nat) :
  forall (attempt : Z) (w : world),
    only_schedule_written g (G w) ->
    (0 <= attempt)%Z ->
    (attempt + Z.of_nat n = MAX_RETRIES g)%Z ->
    (MAX_RETRIES g <= 1024)%Z ->
    let '(r, w', t) := for_attempts s (S n) attempt w in
    (exists e, operation s (op_calls w + n) = Raises e /\ r = Raise e) /\
    ran_out g attempt n w w' t.
Proof.
  induction n as [|k IH]; intros attempt w Hg H0 Hn Hfloat.
  - rewrite for_attempts_S.
    replace attempt with (MAX_RETRIES g) by lia.
    destruct (attempt_body_last w Hg) as [e [Hop ->]].
    split; [|apply ran_out_last].
    exists e. now rewrite Nat.add_0_r.
  - rewrite for_attempts_S.
    destruct (attempt_body_retried attempt w Hg) as [w1 [t1 Hbody]];
      [lia | lia |].
    rewrite Hbody.
    pose proof (attempt_body_pass s attempt w) as Hpass.
    rewrite Hbody in Hpass. destruct Hpass as [HG [Hop1 _]].
    specialize (IH (attempt + 1)%Z w1 (written_by_pass g w w1 Hg HG)).
    destruct (for_attempts s (S k) (attempt + 1) w1) as [[r2 w2] t2].
    destruct IH as [[e [He Hr2]] Hran]; [lia | lia | exact Hfloat |].
    split.
    + exists e. split; [|exact Hr2].
      rewrite <- He, Hop1. f_equal. lia.
    + now apply ran_out_step with w1.
Qed.

(** The loop from [attempt], with [n] retries left before [attempt]
    is 1024 and [MAX_RETRIES] beyond that: it stops there, on
    [OverflowError], with [fuel] passes not made. *)
Lemma for_attempts_overflows (n : nat) :
  forall (attempt : Z) (w : world) (fuel : nat),
    only_schedule_written g (G w) ->
    (0 <= attempt)%Z ->
    (attempt + Z.of_nat n = 1024)%Z ->
    (1024 < MAX_RETRIES g)%Z ->
    let '(r, w', t) := for_attempts s (S n + fuel) attempt w in
    r = Raise OverflowError /\ ran_out g attempt n w w' t.
Proof.
  induction n as [|k IH]; intros attempt w fuel Hg H0 Hn Hfloat.
  - cbn [Nat.add]. rewrite for_attempts_S.
    rewrite (attempt_body_overflow attempt w Hg) by lia.
    split; [reflexivity | apply ran_out_last].
  - cbn [Nat.add]. rewrite for_attempts_S.
    destruct (attempt_body_retried attempt w Hg) as [w1 [t1 Hbody]];
      [lia | lia |].
    rewrite Hbody.
    pose proof (attempt_body_pass s attempt w) as Hpass.
    rewrite Hbody in Hpass. destruct Hpass as [HG _].
    specialize (IH (attempt + 1)%Z w1 fuel (written_by_pass g w w1 Hg HG)).
    change (S (k + fuel)) with (S k + fuel)%nat.
    destruct (for_attempts s (S k + fuel) (attempt + 1) w1)
      as [[r2 w2] t2].
    destruct IH as [Hr2 Hran]; [lia | lia | exact Hfloat |].
    split; [exact Hr2|].
    now apply ran_out_step with w1.
Qed.

End RetriesRunOut.

Section Exhaustion.
Context {T : Type}.
Variable s : surroundings T.

(** While [2 ** attempt] stays within the float range for every
    retry ([MAX_RETRIES] at most 1024), an operation that raises a
    retriable error at every call is called [MAX_RETRIES + 1] times,
    each time after a reservation; the error of the last call is
    raised; and the backoffs slept sum to
    [min(BACKOFF_MAX_SECONDS, BACKOFF_BASE_SECONDS * 2^i)] over
    [i < MAX_RETRIES], or more. *)
Lemma retries_run_out_within_float_range (w : world) :
  policy_ok (G w) ->
  (MAX_RETRIES (G w) <= 1024)%Z ->
  random_ok s ->
  always_retriable s ->
  let n := Z.to_nat (MAX_RETRIES (G w)) in
  let '(r, _, t) := _call_with_rate_limit_and_backoff s w in
  (exists e, operation s (op_calls w + n) = Raises e /\ r = Raise e) /\
  attempts t = S n /\ reservations t = S n /\
  slot_before_each_attempt false t = true /\
  List.length (sleeps BackoffDelay t) = n /\
  backoff_floor (G w) 0 n <= Qsum (sleeps BackoffDelay t).
Proof.
  intros Hpolicy Hfloat Hdraws Hfail n.
  rewrite call_with_rate_limit_and_backoff_eq.
  assert (H0 : (0 <= MAX_RETRIES (G w))%Z) by apply Hpolicy.
  replace (Z.to_nat (MAX_RETRIES (G w) + 1)) with (S n) by (subst n; lia).
  pose proof (for_attempts_runs_out s (G w) Hpolicy Hdraws Hfail n 0 w
                (only_schedule_written_refl (G w))) as Hloop.
  destruct (for_attempts s (S n) 0 w) as [[r w'] t].
  destruct Hloop as [He [Ha [Hr [Hs [_ [Hlen Hsum]]]]]];
    [lia | subst n; lia | exact Hfloat |].
  repeat split; assumption.
Qed.

(** With [MAX_RETRIES] above 1024 the same operation is called 1025
    times; then [2 ** 1024] does not convert to a float and the
    [OverflowError] of the backoff computation is what is raised. *)
Lemma retries_overflow_beyond_float_range (w : world) :
  policy_ok (G w) ->
  (1024 < MAX_RETRIES (G w))%Z ->
  random_ok s ->
  always_retriable s ->
  let '(r, _, t) := _call_with_rate_limit_and_backoff s w in
  r = Raise OverflowError /\ attempts t = 1025%nat /\
  reservations t = 1025%nat /\
  List.length (sleeps BackoffDelay t) = 1024%nat.
Proof.
  intros Hpolicy Hfloat Hdraws Hfail.
  rewrite call_with_rate_limit_and_backoff_eq.
  replace (Z.to_nat (MAX_RETRIES (G w) + 1))
    with (S 1024 + Z.to_nat (MAX_RETRIES (G w) - 1024))%nat by lia.
  pose proof (for_attempts_overflows s (G w) Hpolicy Hdraws Hfail 1024 0 w
                (Z.to_nat (MAX_RETRIES (G w) - 1024))
                (only_schedule_written_refl (G w))) as Hloop.
  destruct (for_attempts s _ 0 w) as [[r w'] t].
  destruct Hloop as [Hr [Ha [Hres [_ [_ [Hlen _]]]]]];
    [lia | reflexivity | exact Hfloat |].
  repeat split; assumption.
Qed.

End Exhaustion.

Lemma always_unavailable_retriable : always_retriable always_unavailable.
Proof. intros n. exists service_unavailable. repeat split. Qed.

Lemma always_unavailable_draws : random_ok always_unavailable.
Proof. intros n. split; cbn; lra. Qed.

Lemma retries_run_out_within_float_range_witness :
  let w := boot (MkEnviron (Some 3%Z) None None None) 0 in
  let '(r, _, t) := _call_with_rate_limit_and_backoff always_unavailable w in
  r = Raise service_unavailable /\ attempts t = 4%nat /\
  1 + (2 + (4 + 0)) <= Qsum (sleeps BackoffDelay t).
Proof.
  cbv zeta.
  pose proof (retries_run_out_within_float_range always_unavailable
    (boot (MkEnviron (Some 3%Z) None None None) 0)
    ltac:(repeat split; vm_compute; discriminate)
    ltac:(vm_compute; discriminate)
    always_unavailable_draws always_unavailable_retriable) as H.
  cbv zeta in H.
  destruct (_call_with_rate_limit_and_backoff _ _) as [[r w'] t].
  destruct H as [[e [He Hr]] [Ha [_ [_ [_ Hsum]]]]].
  cbn in He. inversion He; subst e.
  repeat split; [exact Hr | exact Ha |].
  eapply Qle_trans; [|exact Hsum]. vm_compute. discriminate.
Defined.

(** C3, where the code leaves it.  [S2_MAX_RETRIES] is 1025 and the
    operation raises the retriable "503 Service Unavailable" at every
    call: it is called 1025 times, not [MAX_RETRIES + 1 = 1026], and
    what [_call_with_rate_limit_and_backoff] raises is the
    [OverflowError] of [BACKOFF_BASE_SECONDS * (2 ** 1024)], not the error
    of the last call. *)
Theorem retries_stop_at_float_range :
  let w := boot (MkEnviron (Some 1025%Z) None None None) 0 in
  let '(r, _, t) := _call_with_rate_limit_and_backoff always_unavailable w in
  r = Raise OverflowError /\
  r <> Raise service_unavailable /\
  attempts t = 1025%nat /\
  Z.to_nat (MAX_RETRIES (G w) + 1) = 1026%nat.
Proof.
  cbv zeta.
  pose proof (retries_overflow_beyond_float_range always_unavailable
    (boot (MkEnviron (Some 1025%Z) None None None) 0)
    ltac:(repeat split; vm_compute; discriminate)
    ltac:(vm_compute; reflexivity)
    always_unavailable_draws always_unavailable_retriable) as H.
  destruct (_call_with_rate_limit_and_backoff _ _) as [[r w'] t].
  destruct H as [Hr [Ha _]]. subst r.
  repeat split; [discriminate | exact Ha].
Qed.

(* ================================================================== *)
(** * A run with two failures *)
(* ================================================================== *)

(** [MAX_RETRIES] is 2 and the service answers 503 twice, then the
    operation returns: three calls, each after a reservation, the result
    of the third returned, and backoffs of [1 + jitter] and
    [2 + jitter] seconds ([random.random()] gives a half, the jitter is
    an eighth of a second). *)
Example two_failures_then_success :
  let s := MkSurroundings
             (fun n => if (n <? 2)%nat then Raises service_unavailable
                       else Returns 42%nat)
             (fun _ => 1 # 10) (fun _ => 1 # 2) in
  let w := boot (MkEnviron (Some 2%Z) None None None) 100 in
  let '(r, _, t) := _call_with_rate_limit_and_backoff s w in
  r = Ok (Some 42%nat) /\
  attempts t = 3%nat /\ reservations t = 3%nat /\
  slot_before_each_attempt false t = true /\
  sleeps BackoffDelay t = [9 # 8; 17 # 8].
Proof. vm_compute. repeat split. Qed.

(* ================================================================== *)
(** * What [except Exception] catches *)
(* ================================================================== *)

Lemma caught_iff_Exception (e : exn) :
  caught_by_except_Exception e = true <-> class_of e <> NotAnException.
Proof.
  unfold caught_by_except_Exception.
  destruct (class_of e); cbn; split; congruence.
Qed.

Lemma not_caught_iff_outside (e : exn) :
  caught_by_except_Exception e = false <-> class_of e = NotAnException.
Proof.
  unfold caught_by_except_Exception.
  destruct (class_of e); cbn; split; congruence.
Qed.

(* ================================================================== *)
(** * Sleeps within the range of the timer *)
(* ================================================================== *)

Section TimerRange.
Context {T : Type}.
Variable s : surroundings T.
Hypothesis draws : random_ok s.
Hypothesis op_takes_time : forall n, 0 <= op_seconds s n.

Lemma wait_trace_in_timer_range (w : world) :
  _next_request_time (G w) - clock w <= timer_range_seconds ->
  in_timer_range (wait_trace w).
Proof.
  intros Hnext. unfold wait_trace, reservation_trace, in_timer_range.
  assert (Hmax : reserved_in w - clock w <= timer_range_seconds).
  { unfold reserved_in.
    assert (H : Qmax (clock w) (_next_request_time (G w))
                <= clock w + timer_range_seconds).
    { apply Q.max_lub; [|lra].
      assert (0 <= timer_range_seconds) by (vm_compute; discriminate). lra. }
    lra. }
  destruct (Qlt_le_dec 0 (reserved_in w - clock w));
    repeat constructor; exact Hmax.
Qed.

(** One pass: its sleeps are within the timer's range, and the slot
    after the one it reserved is no more than an interval ahead. *)
Lemma attempt_body_in_timer_range (attempt : Z) (w : world) :
  0 <= BACKOFF_JITTER_SECONDS (G w) ->
  BACKOFF_MAX_SECONDS (G w) + BACKOFF_JITTER_SECONDS (G w)
  <= timer_range_seconds ->
  _next_request_time (G w) - clock w <= timer_range_seconds ->
  let '(r, w', t) := attempt_body s attempt w in
  in_timer_range t /\
  _next_request_time (G w') - clock w' <= REQUEST_INTERVAL_SECONDS (G w).
Proof.
  intros HJ Hcap Hnext. rewrite attempt_body_eq. cbv zeta.
  pose proof (wait_trace_in_timer_range w Hnext) as Hwait.
  pose proof (clock_after_wait w) as Hclock.
  pose proof (op_takes_time (op_calls (after_wait w))) as Hop.
  assert (Hahead :
            _next_request_time (G (after_operation s (after_wait w))) -
            clock (after_operation s (after_wait w))
            <= REQUEST_INTERVAL_SECONDS (G w)).
  { rewrite G_after_operation. cbn [_next_request_time
      set_next_request_time after_operation clock]. lra. }
  assert (Hone : forall e, sleep_in_timer_range e ->
                           in_timer_range (wait_trace w ++ [e])).
  { intros e He. apply Forall_app. split; [exact Hwait|].
    now repeat constructor. }
  destruct (operation s (op_calls w)) as [v|e];
    [split; [now apply Hone | exact Hahead]|].
  destruct (caught_by_except_Exception e);
    [|split; [now apply Hone | exact Hahead]].
  rewrite handle_error_eq.
  destruct ((attempt <? MAX_RETRIES _)%Z && _is_retriable_error e);
    [|split; [now apply Hone | exact Hahead]].
  destruct (int_fits_float (2 ^ attempt));
    [|split; [now apply Hone | exact Hahead]].
  cbv zeta. rewrite G_after_operation.
  set (g1 := set_next_request_time _ (G w)).
  pose proof (capped_backoff_le_cap g1 attempt) as Hb.
  destruct (draws (rand_calls (after_operation s (after_wait w))))
    as [Hu0 Hu1].
  destruct (jitter_of_bounds g1
              (random s (rand_calls (after_operation s (after_wait w))))
              HJ Hu0) as [_ Hj]; [lra|].
  change (BACKOFF_MAX_SECONDS g1) with (BACKOFF_MAX_SECONDS (G w)) in Hb.
  change (BACKOFF_JITTER_SECONDS g1)
    with (BACKOFF_JITTER_SECONDS (G w)) in Hj.
  destruct (Qlt_le_dec _ 0) as [Hneg|Hpos].
  - split; [|exact Hahead].
    apply Forall_app. split; [exact Hwait|]. now repeat constructor.
  - split.
    + apply Forall_app. split; [exact Hwait|].
      repeat constructor. cbn [sleep_in_timer_range]. lra.
    + cbn [set_clock after_draw G clock]. rewrite G_after_operation.
      rewrite G_after_operation in Hahead.
      cbn [_next_request_time set_next_request_time] in *. lra.
Qed.

(** So it is of the whole loop. *)
Lemma for_attempts_in_timer_range (n : nat) :
  forall (attempt : Z) (w : world),
    REQUEST_INTERVAL_SECONDS (G w) <= timer_range_seconds ->
    0 <= BACKOFF_JITTER_SECONDS (G w) ->
    BACKOFF_MAX_SECONDS (G w) + BACKOFF_JITTER_SECONDS (G w)
    <= timer_range_seconds ->
    _next_request_time (G w) - clock w <= timer_range_seconds ->
    let '(_, _, t) := for_attempts s n attempt w in in_timer_range t.
Proof.
  induction n as [|k IH]; intros attempt w Hint HJ Hcap Hnext.
  - constructor.
  - rewrite for_attempts_S.
    pose proof (attempt_body_in_timer_range attempt w HJ Hcap Hnext)
      as Hpass.
    pose proof (attempt_body_pass s attempt w) as Hfacts.
    destruct (attempt_body s attempt w) as [[r w1] t1].
    destruct Hpass as [Ht1 Hahead]. destruct Hfacts as [HG _].
    destruct r as [[v|]|e]; try exact Ht1.
    assert (HG1 : G w1 = set_next_request_time
                           (reserved_in w + REQUEST_INTERVAL_SECONDS (G w))
                           (G w))
      by (now rewrite HG, G_after_wait).
    specialize (IH (attempt + 1)%Z w1).
    destruct (for_attempts s k (attempt + 1) w1) as [[r2 w2] t2].
    apply Forall_app. split; [exact Ht1|].
    apply IH; try (rewrite HG1; cbn; assumption). lra.
Qed.

End TimerRange.

(* ================================================================== *)
(** * The executor, whatever the operation does *)
(* ================================================================== *)

Section AnyOperation.
Context {T : Type}.
Variable s : surroundings T.

(** How a pass ended tells what the operation did in it. *)
Lemma attempt_body_outcome (attempt : Z) (w : world) :
  let '(r, _, _) := attempt_body s attempt w in
  match r with
  | Ok (Return v) => operation s (op_calls w) = Returns v
  | Ok Continue =>
      (attempt < MAX_RETRIES (G w))%Z /\
      exists e, operation s (op_calls w) = Raises e /\
                class_of e <> NotAnException /\
                _is_retriable_error e = true
  | Raise e' =>
      exists e, operation s (op_calls w) = Raises e /\
                (e' = e \/ e' = OverflowError \/ e' = ValueError_sleep)
  end.
Proof.
  rewrite attempt_body_eq. cbv zeta.
  destruct (operation s (op_calls w)) as [v|e]; [reflexivity|].
  destruct (caught_by_except_Exception e) eqn:Hcaught;
    [|exists e; split; [reflexivity | now left]].
  rewrite handle_error_eq, G_after_operation.
  cbn [MAX_RETRIES set_next_request_time].
  destruct (attempt <? MAX_RETRIES (G w))%Z eqn:Hlt;
    [|exists e; split; [reflexivity | now left]].
  destruct (_is_retriable_error e) eqn:Hretry;
    [|exists e; split; [reflexivity | now left]].
  cbn [andb].
  destruct (int_fits_float (2 ^ attempt));
    [|exists e; split; [reflexivity | right; now left]].
  cbv zeta. destruct (Qlt_le_dec _ 0).
  - exists e. split; [reflexivity | right; now right].
  - split; [now apply Z.ltb_lt|]. exists e.
    split; [reflexivity|]. split; [|exact Hretry].
    now apply caught_iff_Exception.
Qed.

(** The loop from [attempt] with [n] passes left, in a process whose
    policy is that of [g]. *)
Lemma for_attempts_shape (g : globals) (n : nat) :
  forall (attempt : Z) (w : world),
    only_schedule_written g (G w) ->
    let '(r, w', t) := for_attempts s n attempt w in
    let retries := List.length (sleeps BackoffDelay t) in
    (attempts t <= n)%nat /\
    reservations t = attempts t /\
    (forall rest,
        slot_before_each_attempt false (t ++ rest) =
        slot_before_each_attempt false rest) /\
    op_calls w' = (op_calls w + attempts t)%nat /\
    retriable_run s (op_calls w) retries /\
    (retries = 0%nat \/ (attempt + Z.of_nat retries <= MAX_RETRIES g)%Z) /\
    match r with
    | Ok None => retries = n /\ attempts t = n
    | Ok (Some v) =>
        attempts t = S retries /\
        operation s (op_calls w + retries) = Returns v
    | Raise e' =>
        attempts t = S retries /\
        exists e, operation s (op_calls w + retries) = Raises e /\
                  (e' = e \/ e' = OverflowError \/ e' = ValueError_sleep)
    end.
Proof.
  induction n as [|k IH]; intros attempt w Hg.
  - cbn. repeat split;
      first [reflexivity | lia | now left | intros i Hi; lia].
  - rewrite for_attempts_S.
    pose proof (attempt_body_pass s attempt w) as Hpass.
    pose proof (attempt_body_outcome attempt w) as Hout.
    destruct (attempt_body s attempt w) as [[r w1] t1].
    destruct Hpass as [HG [Hop [_ [Ha [Hr [Hs Hsl]]]]]].
    destruct r as [[v|]|e'].
    + rewrite Hsl, Ha, Hr, Hop. cbn [List.length].
      rewrite Nat.add_0_r.
      repeat split;
        first [lia | assumption | now left | intros rest; apply Hs
              | intros i Hi; lia].
    + destruct Hsl as [_ Hsl]. destruct Hout as [Hlt [e [He [Hc Hre]]]].
      specialize (IH (attempt + 1)%Z w1 (written_by_pass g w w1 Hg HG)).
      destruct (for_attempts s k (attempt + 1) w1) as [[r2 w2] t2].
      cbv zeta in IH.
      destruct IH as [Ha2 [Hr2 [Hs2 [Hop2 [Hrun2 [Hmax2 Hres2]]]]]].
      cbv zeta. rewrite attempts_app, reservations_app, sleeps_app, Hsl.
      cbn [app List.length]. rewrite Ha, Hr, Hr2, Hop2, Hop.
      destruct (policy_of_written g (G w) Hg) as [HM _].
      rewrite HM in Hlt.
      split; [lia|]. split; [reflexivity|]. split.
      { intros rest. now rewrite <- app_assoc, Hs, Hs2. }
      split; [lia|]. split.
      { intros i Hi. destruct i as [|i].
        - exists e. rewrite Nat.add_0_r. now repeat split.
        - destruct (Hrun2 i) as [e2 [He2 Hrest]]; [lia|].
          exists e2. split; [|exact Hrest].
          rewrite <- He2. f_equal. lia. }
      split.
      { right. destruct Hmax2 as [H0|Hle]; [rewrite H0|]; lia. }
      destruct r2 as [[v|]|e2].
      * destruct Hres2 as [Hat Hv]. split; [lia|].
        rewrite <- Hv. f_equal. lia.
      * destruct Hres2 as [Hn Hat]. split; lia.
      * destruct Hres2 as [Hat [e0 [He0 Hor]]]. split; [lia|].
        exists e0. split; [|exact Hor]. rewrite <- He0. f_equal. lia.
    + destruct Hout as [e [He Hor]].
      rewrite Hsl, Ha, Hr, Hop. cbn [List.length]. rewrite Nat.add_0_r.
      repeat split;
        first [lia | assumption | now left | intros rest; apply Hs
              | intros i Hi; lia | exists e; now split].
Qed.

(** X1. With [MAX_RETRIES] not negative, whatever the operation does: it is
    called once at least and [MAX_RETRIES + 1] times at most, each call
    after a reservation of its own; a backoff is slept between two
    calls and nowhere else; and the function does not come back with
    the [None] of a loop that ran off its end. *)
Theorem attempts_are_bounded (w : world) :
  (0 <= MAX_RETRIES (G w))%Z ->
  let '(r, w', t) := _call_with_rate_limit_and_backoff s w in
  (1 <= attempts t <= Z.to_nat (MAX_RETRIES (G w) + 1))%nat /\
  reservations t = attempts t /\
  slot_before_each_attempt false t = true /\
  attempts t = S (List.length (sleeps BackoffDelay t)) /\
  op_calls w' = (op_calls w + attempts t)%nat /\
  r <> Ok None.
Proof.
  intros Hmax. rewrite call_with_rate_limit_and_backoff_eq.
  pose proof (for_attempts_shape (G w)
                (Z.to_nat (MAX_RETRIES (G w) + 1)) 0 w
                (only_schedule_written_refl (G w))) as H.
  destruct (for_attempts s _ 0 w) as [[r w'] t]. cbv zeta in H.
  destruct H as [Ha [Hr [Hs [Hop [_ [Hm Hres]]]]]].
  assert (Hsucc : attempts t = S (List.length (sleeps BackoffDelay t))).
  { destruct r as [[v|]|e]; [apply Hres | | apply Hres].
    destruct Hres as [Hn _]. destruct Hm as [H0|Hle]; lia. }
  repeat split; try assumption; try lia.
  - specialize (Hs []). rewrite app_nil_r in Hs. now rewrite Hs.
  - intros ->. destruct Hres as [Hn _]. destruct Hm as [H0|Hle]; lia.
Qed.

(** X2. In a process whose sleeps fit the timer, whatever the operation
    does: no sleep of the run is longer than [time.sleep] takes; every
    call before the last one raised an exception under [Exception]
    that is retriable; a value that is returned is the one the last
    call returned; and an exception that is raised is the one the last
    call raised, unless the backoff after it could not be computed
    ([OverflowError], the power of two beyond the floats) or slept
    ([ValueError], a negative delay). *)
Theorem last_call_decides (w : world) :
  timer_suffices s w ->
  random_ok s ->
  let '(r, _, t) := _call_with_rate_limit_and_backoff s w in
  let retries := List.length (sleeps BackoffDelay t) in
  in_timer_range t /\
  retriable_run s (op_calls w) retries /\
  match r with
  | Ok None => attempts t = 0%nat
  | Ok (Some v) => operation s (op_calls w + retries) = Returns v
  | Raise e' =>
      exists e, operation s (op_calls w + retries) = Raises e /\
                (e' = e \/ e' = OverflowError \/ e' = ValueError_sleep)
  end.
Proof.
  intros [Hint [Hnext [HJ [Hcap Hop]]]] Hdraws.
  rewrite call_with_rate_limit_and_backoff_eq.
  pose proof (for_attempts_shape (G w)
                (Z.to_nat (MAX_RETRIES (G w) + 1)) 0 w
                (only_schedule_written_refl (G w))) as H.
  pose proof (for_attempts_in_timer_range s Hdraws Hop
                (Z.to_nat (MAX_RETRIES (G w) + 1)) 0 w
                Hint HJ Hcap Hnext) as Htimer.
  destruct (for_attempts s _ 0 w) as [[r w'] t]. cbv zeta in H.
  destruct H as [_ [_ [_ [_ [Hrun [Hm Hres]]]]]].
  cbv zeta. split; [exact Htimer|]. split; [exact Hrun|].
  destruct r as [[v|]|e]; [apply Hres | | apply Hres].
  destruct Hres as [Hn Ha]. rewrite Ha.
  destruct Hm as [H0|Hle]; lia.
Qed.

End AnyOperation.

Lemma attempts_are_bounded_witness :
  let s := MkSurroundings
             (fun n => if (n <? 2)%nat then Raises service_unavailable
                       else Returns 42%nat)
             (fun _ => 1 # 10) (fun _ => 1 # 2) in
  let w := boot (MkEnviron (Some 5%Z) None None None) 100 in
  let '(r, w', t) := _call_with_rate_limit_and_backoff s w in
  attempts t = 3%nat /\
  ((1 <= attempts t <= Z.to_nat (MAX_RETRIES (G w) + 1))%nat /\
   reservations t = attempts t /\
   slot_before_each_attempt false t = true /\
   attempts t = S (List.length (sleeps BackoffDelay t)) /\
   op_calls w' = (op_calls w + attempts t)%nat /\
   r <> Ok None).
Proof.
  cbv zeta.
  pose proof (attempts_are_bounded
    (MkSurroundings
       (fun n => if (n <? 2)%nat then Raises service_unavailable
                 else Returns 42%nat)
       (fun _ => 1 # 10) (fun _ => 1 # 2))
    (boot (MkEnviron (Some 5%Z) None None None) 100)
    ltac:(vm_compute; discriminate)) as H.
  destruct (_call_with_rate_limit_and_backoff _ _) as [[r w'] t] eqn:Hrun.
  split; [|exact H].
  vm_compute in Hrun. inversion Hrun. reflexivity.
Defined.

(* ================================================================== *)
(** * Failures first, then an outcome that decides *)
(* ================================================================== *)

Lemma retry_delay_nonneg (g : globals) (attempt : Z) (u : Q) :
  durations_ok g -> 0 <= u -> u <= 1 ->
  0 <= capped_backoff g attempt /\
  capped_backoff g attempt <= retry_delay g attempt u.
Proof.
  intros [Hb [Hc HJ]] Hu0 Hu1.
  destruct (jitter_of_bounds g u HJ Hu0 Hu1) as [Hj0 _].
  pose proof (capped_backoff_nonneg g attempt Hb Hc).
  unfold retry_delay. split; lra.
Qed.

Section FailuresFirst.
Context {T : Type}.
Variable s : surroundings T.
Variable g : globals.
Hypothesis durations : durations_ok g.
Hypothesis draws : random_ok s.

(** A pass in which the operation raises a retriable exception, with
    retries left and the power within the float range: the backoff is
    slept and the loop goes on. *)
Lemma attempt_body_retries (attempt : Z) (w : world) (e : exn) :
  only_schedule_written g (G w) ->
  (0 <= attempt < MAX_RETRIES g)%Z -> (attempt < 1024)%Z ->
  operation s (op_calls w) = Raises e ->
  caught_by_except_Exception e = true ->
  _is_retriable_error e = true ->
  exists w1 t1, attempt_body s attempt w = (Ok Continue, w1, t1).
Proof.
  intros Hg Hlt Hfloat Hop Hcaught Hretry.
  rewrite attempt_body_eq. cbv zeta. rewrite Hop, Hcaught.
  rewrite handle_error_eq, G_after_operation.
  cbn [MAX_RETRIES set_next_request_time].
  destruct (policy_of_written g (G w) Hg) as [-> _].
  replace (attempt <? MAX_RETRIES g)%Z with true
    by (symmetry; apply Z.ltb_lt; lia).
  rewrite Hretry, pow2_fits_float by lia. cbn [andb]. cbv zeta.
  rewrite rand_calls_after_operation.
  change (capped_backoff
            (set_next_request_time
               (reserved_in w + REQUEST_INTERVAL_SECONDS (G w)) (G w))
            attempt +
          jitter_of
            (set_next_request_time
               (reserved_in w + REQUEST_INTERVAL_SECONDS (G w)) (G w))
            (random s (rand_calls w)))
    with (retry_delay (G w) attempt (random s (rand_calls w))).
  rewrite (retry_delay_written g (G w) _ _ Hg).
  destruct (draws (rand_calls w)) as [Hu0 Hu1].
  destruct (retry_delay_nonneg g attempt (random s (rand_calls w))
              durations Hu0) as [H0 H1]; [lra|].
  destruct (Qlt_le_dec _ 0) as [Hneg|_]; [lra|].
  eexists; eexists; reflexivity.
Qed.

(** [k] passes in which the operation raises retriable exceptions:
    the loop is then where it would be had it started [k] attempts
    later, [k] calls, reservations and backoffs behind it. *)
Lemma for_attempts_after_failures (k : nat) :
  forall (n : nat) (attempt : Z) (w : world),
    only_schedule_written g (G w) ->
    (0 <= attempt)%Z ->
    (attempt + Z.of_nat k <= MAX_RETRIES g)%Z ->
    (attempt + Z.of_nat k <= 1024)%Z ->
    retriable_run s (op_calls w) k ->
    exists (wk : world) (tk : list event),
      only_schedule_written g (G wk) /\
      op_calls wk = (op_calls w + k)%nat /\
      attempts tk = k /\ reservations tk = k /\
      (forall rest,
          slot_before_each_attempt false (tk ++ rest) =
          slot_before_each_attempt false rest) /\
      List.length (sleeps BackoffDelay tk) = k /\
      backoff_floor g attempt k <= Qsum (sleeps BackoffDelay tk) /\
      for_attempts s (k + n) attempt w =
      let '(r, w', t) := for_attempts s n (attempt + Z.of_nat k) wk in
      (r, w', tk ++ t).
Proof.
  induction k as [|k IH]; intros n attempt w Hg H0 Hmax Hfloat Hrun.
  - exists w, []. cbn [Nat.add app Z.of_nat]. rewrite Z.add_0_r, Nat.add_0_r.
    repeat split; try reflexivity; try exact Hg; try (cbn; lra).
    now destruct (for_attempts s n attempt w) as [[r w'] t].
  - destruct (Hrun 0%nat) as [e [Hop [Hcaught Hretry]]]; [lia|].
    apply caught_iff_Exception in Hcaught.
    rewrite Nat.add_0_r in Hop.
    destruct (attempt_body_retries attempt w e Hg) as [w1 [t1 Hbody]];
      try assumption; try lia.
    pose proof (attempt_body_pass s attempt w) as Hpass.
    rewrite Hbody in Hpass.
    destruct Hpass as [HG [Hop1 [_ [Ha1 [Hr1 [Hs1 [_ Hsl1]]]]]]].
    destruct (IH n (attempt + 1)%Z w1 (written_by_pass g w w1 Hg HG))
      as [wk [tk [Hgk [Hopk [Hak [Hrk [Hsk [Hlen [Hsum Heq]]]]]]]]];
      try lia.
    { intros i Hi. destruct (Hrun (S i)) as [e' He']; [lia|].
      exists e'. rewrite Hop1.
      replace (S (op_calls w) + i)%nat with (op_calls w + S i)%nat by lia.
      exact He'. }
    exists wk, (t1 ++ tk).
    rewrite attempts_app, reservations_app, sleeps_app, Ha1, Hr1, Hak, Hrk,
      Hsl1, Hopk, Hop1.
    rewrite (retry_delay_written g (G w) _ _ Hg).
    cbn [app List.length Qsum backoff_floor]. rewrite Hlen.
    destruct (draws (rand_calls w)) as [Hu0 Hu1].
    destruct (retry_delay_nonneg g attempt (random s (rand_calls w))
                durations Hu0) as [_ Hd]; [lra|].
    repeat split; try lia; try assumption.
    + intros rest. now rewrite <- app_assoc, Hs1, Hsk.
    + lra.
    + cbn [Nat.add]. rewrite for_attempts_S, Hbody, Heq.
      replace (attempt + 1 + Z.of_nat k)%Z
        with (attempt + Z.of_nat (S k))%Z by lia.
      destruct (for_attempts s n (attempt + Z.of_nat (S k)) wk)
        as [[r w'] t].
      now rewrite app_assoc.
Qed.

End FailuresFirst.

Section Decisive.
Context {T : Type}.
Variable s : surroundings T.

(** A pass in which the operation raises what is not retried: an
    exception outside [Exception], one that is not retriable, or any
    one when no retry is left. *)
Lemma attempt_body_decisive (attempt : Z) (w : world) (e : exn) :
  operation s (op_calls w) = Raises e ->
  class_of e = NotAnException \/
  _is_retriable_error e = false \/
  attempt = MAX_RETRIES (G w) ->
  attempt_body s attempt w =
  (Raise e, after_operation s (after_wait w),
   wait_trace w ++ [Invoked (op_calls w)]).
Proof.
  intros Hop [Hcaught|[Hfatal|Hlast]].
  - apply not_caught_iff_outside in Hcaught.
    rewrite attempt_body_eq. cbv zeta. now rewrite Hop, Hcaught.
  - apply attempt_body_not_retried; [exact Hop|].
    rewrite Hfatal. apply andb_false_r.
  - apply attempt_body_not_retried; [exact Hop|].
    subst attempt. now rewrite Z.ltb_irrefl.
Qed.

(** X3. In a process whose sleeps fit the timer, the operation raises
    retriable exceptions under [Exception] at its first [k] calls and
    returns at the next one, with [k] retries allowed and within the
    float range: that value is returned, after [k + 1] calls, each with
    its reservation, and [k] backoffs that sum to
    [min(BACKOFF_MAX_SECONDS, BACKOFF_BASE_SECONDS * 2^i)] over
    [i < k], or more; and no sleep of the run is longer than
    [time.sleep] takes. *)
Theorem succeeds_after_failures (w : world) (k : nat) (v : T) :
  durations_ok (G w) ->
  timer_suffices s w ->
  random_ok s ->
  (Z.of_nat k <= MAX_RETRIES (G w))%Z ->
  (k <= 1024)%nat ->
  retriable_run s (op_calls w) k ->
  operation s (op_calls w + k) = Returns v ->
  let '(r, _, t) := _call_with_rate_limit_and_backoff s w in
  r = Ok (Some v) /\
  attempts t = S k /\ reservations t = S k /\
  slot_before_each_attempt false t = true /\
  List.length (sleeps BackoffDelay t) = k /\
  backoff_floor (G w) 0 k <= Qsum (sleeps BackoffDelay t) /\
  in_timer_range t.
Proof.
  intros Hdur [Hint [Hnext [HJ [Hcap Hop]]]] Hdraws Hmax Hfloat Hrun Hv.
  rewrite call_with_rate_limit_and_backoff_eq.
  pose proof (for_attempts_in_timer_range s Hdraws Hop
                (Z.to_nat (MAX_RETRIES (G w) + 1)) 0 w
                Hint HJ Hcap Hnext) as Htimer.
  replace (Z.to_nat (MAX_RETRIES (G w) + 1))
    with (k + S (Z.to_nat (MAX_RETRIES (G w) - Z.of_nat k)))%nat in *
    by lia.
  destruct (for_attempts_after_failures s (G w) Hdur Hdraws k
              (S (Z.to_nat (MAX_RETRIES (G w) - Z.of_nat k))) 0 w
              (only_schedule_written_refl (G w)))
    as [wk [tk [Hgk [Hopk [Hak [Hrk [Hsk [Hlen [Hsum Heq]]]]]]]]];
    try lia; try assumption.
  rewrite Heq in Htimer. rewrite Heq. clear Heq.
  rewrite <- Hopk in Hv.
  rewrite for_attempts_S, attempt_body_eq in Htimer.
  rewrite for_attempts_S, attempt_body_eq.
  cbv zeta in Htimer. cbv zeta. rewrite Hv in Htimer. rewrite Hv.
  destruct (first_pass_trace false wk) as [Ha [Hr [Hb [_ Hs]]]].
  rewrite attempts_app, reservations_app, sleeps_app, Hsk, Hak, Hrk,
    Ha, Hr, Hb, Hs, app_nil_r, Hlen.
  repeat split; try lia; [exact Hsum | exact Htimer].
Qed.

(** X4. In a process whose sleeps fit the timer, the operation raises
    retriable exceptions under [Exception] at its first [k] calls and
    then an exception that ends the run: one that is not under
    [Exception], one that is not retriable, or any one if [k] is
    [MAX_RETRIES].  That exception is raised, after [k + 1] calls and
    [k] backoffs, no sleep longer than [time.sleep] takes. *)
Theorem fails_after_failures (w : world) (k : nat) (e : exn) :
  durations_ok (G w) ->
  timer_suffices s w ->
  random_ok s ->
  (Z.of_nat k <= MAX_RETRIES (G w))%Z ->
  (k <= 1024)%nat ->
  retriable_run s (op_calls w) k ->
  operation s (op_calls w + k) = Raises e ->
  class_of e = NotAnException \/
  _is_retriable_error e = false \/
  Z.of_nat k = MAX_RETRIES (G w) ->
  let '(r, _, t) := _call_with_rate_limit_and_backoff s w in
  r = Raise e /\
  attempts t = S k /\ reservations t = S k /\
  slot_before_each_attempt false t = true /\
  List.length (sleeps BackoffDelay t) = k /\
  in_timer_range t.
Proof.
  intros Hdur [Hint [Hnext [HJ [Hcap Hop]]]] Hdraws Hmax Hfloat Hrun He
         Hends.
  rewrite call_with_rate_limit_and_backoff_eq.
  pose proof (for_attempts_in_timer_range s Hdraws Hop
                (Z.to_nat (MAX_RETRIES (G w) + 1)) 0 w
                Hint HJ Hcap Hnext) as Htimer.
  replace (Z.to_nat (MAX_RETRIES (G w) + 1))
    with (k + S (Z.to_nat (MAX_RETRIES (G w) - Z.of_nat k)))%nat in *
    by lia.
  destruct (for_attempts_after_failures s (G w) Hdur Hdraws k
              (S (Z.to_nat (MAX_RETRIES (G w) - Z.of_nat k))) 0 w
              (only_schedule_written_refl (G w)))
    as [wk [tk [Hgk [Hopk [Hak [Hrk [Hsk [Hlen [Hsum Heq]]]]]]]]];
    try lia; try assumption.
  rewrite Heq in Htimer. rewrite Heq. clear Heq.
  assert (Hbody : attempt_body s (0 + Z.of_nat k) wk =
                  (Raise e, after_operation s (after_wait wk),
                   wait_trace wk ++ [Invoked (op_calls wk)])).
  { apply attempt_body_decisive; [now rewrite Hopk|].
    destruct (policy_of_written (G w) (G wk) Hgk) as [-> _].
    destruct Hends as [H|[H|H]]; [now left | right; now left |].
    right; right. lia. }
  rewrite for_attempts_S, Hbody in Htimer.
  rewrite for_attempts_S, Hbody.
  destruct (first_pass_trace false wk) as [Ha [Hr [Hb [_ Hs]]]].
  rewrite attempts_app, reservations_app, sleeps_app, Hsk, Hak, Hrk,
    Ha, Hr, Hb, Hs, app_nil_r, Hlen.
  repeat split; try lia. exact Htimer.
Qed.

(** X5. The first failure is retriable and a retry is left, but the delay
    computed for it is negative (a negative [S2_BACKOFF_MAX_SECONDS],
    say): [time.sleep] refuses it, and what the function raises after
    that one call is the [ValueError], the warning already logged. *)
Theorem negative_delay_raises_value_error (w : world) (e : exn) :
  let delay := retry_delay (G w) 0 (random s (rand_calls w)) in
  (0 < MAX_RETRIES (G w))%Z ->
  operation s (op_calls w) = Raises e ->
  caught_by_except_Exception e = true ->
  _is_retriable_error e = true ->
  delay < 0 ->
  let '(r, _, t) := _call_with_rate_limit_and_backoff s w in
  r = Raise ValueError_sleep /\
  t = wait_trace w ++
      [Invoked (op_calls w); Warned e delay 1 (MAX_RETRIES (G w))] /\
  attempts t = 1%nat /\ sleeps BackoffDelay t = [].
Proof.
  intros delay Hmax Hop Hcaught Hretry Hneg.
  rewrite call_with_rate_limit_and_backoff_eq.
  replace (Z.to_nat (MAX_RETRIES (G w) + 1))
    with (S (Z.to_nat (MAX_RETRIES (G w)))) by lia.
  rewrite for_attempts_S, attempt_body_eq. cbv zeta.
  rewrite Hop, Hcaught, handle_error_eq, G_after_operation.
  cbn [MAX_RETRIES set_next_request_time].
  replace (0 <? MAX_RETRIES (G w))%Z with true
    by (symmetry; apply Z.ltb_lt; lia).
  rewrite Hretry. cbn [andb].
  replace (int_fits_float (2 ^ 0)) with true by reflexivity.
  cbv zeta. rewrite rand_calls_after_operation.
  change (capped_backoff
            (set_next_request_time
               (reserved_in w + REQUEST_INTERVAL_SECONDS (G w)) (G w)) 0 +
          jitter_of
            (set_next_request_time
               (reserved_in w + REQUEST_INTERVAL_SECONDS (G w)) (G w))
            (random s (rand_calls w)))
    with delay.
  destruct (Qlt_le_dec delay 0) as [_|Hge]; [|lra].
  change (0 + 1)%Z with 1%Z.
  repeat split.
  - apply pass_attempts. reflexivity.
  - now rewrite pass_backoff_sleeps.
Qed.

End Decisive.

(** Two failures, then a value (or a third, fatal failure). *)
Lemma two_failures_run (T : Type) (last : outcome T) :
  retriable_run
    (MkSurroundings
       (fun n => if (n <? 2)%nat then Raises service_unavailable else last)
       (fun _ => 1 # 10) (fun _ => 1 # 2)) 0 2.
Proof.
  intros i Hi. exists service_unavailable.
  destruct i as [|[|i]]; [now repeat split | now repeat split | lia].
Qed.

Lemma half_is_a_draw (T : Type) (operation : nat -> outcome T)
      (seconds : nat -> Q) :
  random_ok (MkSurroundings operation seconds (fun _ => 1 # 2)).
Proof. intros n. split; vm_compute; [discriminate | reflexivity]. Qed.

(** A process just imported, its policy the default but for
    [S2_MAX_RETRIES], and an operation that takes a tenth of a
    second. *)
Lemma default_timer_suffices (T : Type) (operation : nat -> outcome T)
      (random : nat -> Q) (max_retries : option Z) (t0 : Q) :
  0 <= t0 ->
  timer_suffices (MkSurroundings operation (fun _ => 1 # 10) random)
                 (boot (MkEnviron max_retries None None None) t0).
Proof.
  intros Ht0. unfold timer_suffices. cbn.
  assert (0 <= timer_range_seconds) by (vm_compute; discriminate).
  repeat split; try (vm_compute; discriminate); lra.
Qed.

Lemma last_call_decides_witness :
  let s := MkSurroundings
             (fun n => if (n <? 2)%nat then Raises service_unavailable
                       else Returns 42%nat)
             (fun _ => 1 # 10) (fun _ => 1 # 2) in
  let w := boot (MkEnviron None None None None) 100 in
  let '(r, _, t) := _call_with_rate_limit_and_backoff s w in
  let retries := List.length (sleeps BackoffDelay t) in
  (r = Ok (Some 42%nat) /\ retries = 2%nat) /\
  (in_timer_range t /\
   retriable_run s (op_calls w) retries /\
   match r with
   | Ok None => attempts t = 0%nat
   | Ok (Some v) => operation s (op_calls w + retries) = Returns v
   | Raise e' =>
       exists e, operation s (op_calls w + retries) = Raises e /\
                 (e' = e \/ e' = OverflowError \/ e' = ValueError_sleep)
   end).
Proof.
  cbv zeta.
  pose proof (last_call_decides
    (MkSurroundings
       (fun n => if (n <? 2)%nat then Raises service_unavailable
                 else Returns 42%nat)
       (fun _ => 1 # 10) (fun _ => 1 # 2))
    (boot (MkEnviron None None None None) 100)
    (default_timer_suffices _ _ _ None 100 ltac:(vm_compute; discriminate))
    (half_is_a_draw _ _ _)) as H.
  destruct (_call_with_rate_limit_and_backoff _ _) as [[r w'] t] eqn:Hrun.
  split; [|exact H].
  vm_compute in Hrun. inversion Hrun. split; reflexivity.
Defined.

Lemma succeeds_after_failures_witness :
  let s := MkSurroundings
             (fun n => if (n <? 2)%nat then Raises service_unavailable
                       else Returns 42%nat)
             (fun _ => 1 # 10) (fun _ => 1 # 2) in
  let w := boot (MkEnviron None None None None) 100 in
  let '(r, _, t) := _call_with_rate_limit_and_backoff s w in
  r = Ok (Some 42%nat) /\
  attempts t = 3%nat /\ reservations t = 3%nat /\
  slot_before_each_attempt false t = true /\
  List.length (sleeps BackoffDelay t) = 2%nat /\
  backoff_floor (G w) 0 2 <= Qsum (sleeps BackoffDelay t) /\
  in_timer_range t.
Proof.
  cbv zeta.
  exact (succeeds_after_failures
    (MkSurroundings
       (fun n => if (n <? 2)%nat then Raises service_unavailable
                 else Returns 42%nat)
       (fun _ => 1 # 10) (fun _ => 1 # 2))
    (boot (MkEnviron None None None None) 100) 2 42%nat
    ltac:(repeat split; vm_compute; discriminate)
    (default_timer_suffices _ _ _ None 100 ltac:(vm_compute; discriminate))
    (half_is_a_draw _ _ _)
    ltac:(vm_compute; discriminate) ltac:(lia)
    (two_failures_run _ _) eq_refl).
Defined.

Lemma fails_after_failures_witness :
  let interrupt := MkExn NotAnException "503 Service Unavailable" in
  let s := MkSurroundings
             (fun n => if (n <? 2)%nat then Raises service_unavailable
                       else @Raises nat interrupt)
             (fun _ => 1 # 10) (fun _ => 1 # 2) in
  let w := boot (MkEnviron None None None None) 100 in
  let '(r, _, t) := _call_with_rate_limit_and_backoff s w in
  r = Raise interrupt /\
  attempts t = 3%nat /\ reservations t = 3%nat /\
  slot_before_each_attempt false t = true /\
  List.length (sleeps BackoffDelay t) = 2%nat /\
  in_timer_range t.
Proof.
  cbv zeta.
  exact (fails_after_failures
    (MkSurroundings
       (fun n => if (n <? 2)%nat then Raises service_unavailable
                 else @Raises nat
                        (MkExn NotAnException "503 Service Unavailable"))
       (fun _ => 1 # 10) (fun _ => 1 # 2))
    (boot (MkEnviron None None None None) 100) 2
    (MkExn NotAnException "503 Service Unavailable")
    ltac:(repeat split; vm_compute; discriminate)
    (default_timer_suffices _ _ _ None 100 ltac:(vm_compute; discriminate))
    (half_is_a_draw _ _ _)
    ltac:(vm_compute; discriminate) ltac:(lia)
    (two_failures_run _ _) eq_refl
    (or_introl eq_refl)).
Defined.

Lemma negative_delay_raises_value_error_witness :
  let s := MkSurroundings (fun _ => @Raises nat service_unavailable)
                          (fun _ => 1 # 10) (fun _ => 1 # 2) in
  let w := boot (MkEnviron None None (Some (-1)) None) 100 in
  let '(r, _, t) := _call_with_rate_limit_and_backoff s w in
  r = Raise ValueError_sleep /\
  t = wait_trace w ++
      [Invoked (op_calls w);
       Warned service_unavailable
              (retry_delay (G w) 0 (random s (rand_calls w)))
              1 (MAX_RETRIES (G w))] /\
  attempts t = 1%nat /\ sleeps BackoffDelay t = [].
Proof.
  cbv zeta.
  exact (negative_delay_raises_value_error
    (MkSurroundings (fun _ => @Raises nat service_unavailable)
                    (fun _ => 1 # 10) (fun _ => 1 # 2))
    (boot (MkEnviron None None (Some (-1)) None) 100)
    service_unavailable
    ltac:(vm_compute; reflexivity) eq_refl eq_refl eq_refl
    ltac:(vm_compute; reflexivity)).
Defined.

(* ================================================================== *)
(** * The time spent backing off *)
(* ================================================================== *)

Lemma Qsum_le_bound (l : list Q) (B : Q) :
  (forall d, In d l -> d <= B) ->
  Qsum l <= inject_Z (Z.of_nat (List.length l)) * B.
Proof.
  induction l as [|x l IH]; intros Hall.
  - cbn [Qsum List.length]. change (inject_Z (Z.of_nat 0)) with 0. lra.
  - cbn [Qsum List.length]. rewrite inject_Z_of_nat_succ.
    assert (Hx : x <= B) by (apply Hall; now left).
    assert (Hl : Qsum l <= inject_Z (Z.of_nat (List.length l)) * B)
      by (apply IH; intros d Hd; apply Hall; now right).
    lra.
Qed.

Section TotalBackoff.
Context {T : Type}.
Variable s : surroundings T.

(** X6. Whatever the operation does, the backoffs slept by one call of
    [_call_with_rate_limit_and_backoff] sum to
    [MAX_RETRIES * (BACKOFF_MAX_SECONDS + BACKOFF_JITTER_SECONDS)] at
    most. *)
Theorem total_backoff_is_bounded (w : world) :
  (0 <= MAX_RETRIES (G w))%Z ->
  0 <= BACKOFF_MAX_SECONDS (G w) ->
  0 <= BACKOFF_JITTER_SECONDS (G w) ->
  random_ok s ->
  let '(_, _, t) := _call_with_rate_limit_and_backoff s w in
  Qsum (sleeps BackoffDelay t) <=
  inject_Z (MAX_RETRIES (G w)) *
  (BACKOFF_MAX_SECONDS (G w) + BACKOFF_JITTER_SECONDS (G w)).
Proof.
  intros Hmax Hcap HJ Hdraws.
  rewrite call_with_rate_limit_and_backoff_eq.
  pose proof (for_attempts_shape s (G w)
                (Z.to_nat (MAX_RETRIES (G w) + 1)) 0 w
                (only_schedule_written_refl (G w))) as Hshape.
  pose proof (for_attempts_backoff_sleeps s (G w)
                (Z.to_nat (MAX_RETRIES (G w) + 1)) 0 w
                (only_schedule_written_refl (G w))) as Heach.
  destruct (for_attempts s _ 0 w) as [[r w'] t]. cbv zeta in Hshape.
  destruct Hshape as [_ [_ [_ [_ [_ [Hcount _]]]]]].
  set (B := BACKOFF_MAX_SECONDS (G w) + BACKOFF_JITTER_SECONDS (G w)).
  apply Qle_trans
    with (inject_Z (Z.of_nat (List.length (sleeps BackoffDelay t))) * B).
  - apply Qsum_le_bound. intros d Hd.
    destruct (In_nth_error _ _ Hd) as [i Hi].
    rewrite (Heach i d Hi).
    destruct (Hdraws (rand_calls w + i)%nat) as [Hu0 Hu1].
    destruct (jitter_of_bounds (G w) (random s (rand_calls w + i)) HJ Hu0)
      as [_ Hj]; [lra|].
    pose proof (capped_backoff_le_cap (G w) (0 + Z.of_nat i)) as Hc.
    unfold retry_delay, B. lra.
  - apply Qmult_le_compat_r; [|unfold B; lra].
    rewrite <- Zle_Qle. destruct Hcount as [H0|Hle]; [rewrite H0|]; lia.
Qed.

End TotalBackoff.

Lemma total_backoff_is_bounded_witness :
  let s := MkSurroundings (fun _ => @Raises nat service_unavailable)
                          (fun _ => 1 # 10) (fun _ => 1 # 2) in
  let w := boot (MkEnviron (Some 3%Z) None (Some 2) None) 100 in
  let '(_, _, t) := _call_with_rate_limit_and_backoff s w in
  Qsum (sleeps BackoffDelay t) <=
  inject_Z (MAX_RETRIES (G w)) *
  (BACKOFF_MAX_SECONDS (G w) + BACKOFF_JITTER_SECONDS (G w)).
Proof.
  cbv zeta.
  exact (total_backoff_is_bounded
    (MkSurroundings (fun _ => @Raises nat service_unavailable)
                    (fun _ => 1 # 10) (fun _ => 1 # 2))
    (boot (MkEnviron (Some 3%Z) None (Some 2) None) 100)
    ltac:(vm_compute; discriminate) ltac:(vm_compute; discriminate)
    ltac:(vm_compute; discriminate) (half_is_a_draw _ _ _)).
Defined.

(* ================================================================== *)
(** * The rate limiter, busy or idle *)
(* ================================================================== *)

(** X7. A call of [_wait_for_request_slot] never raises; the caller goes on
    at [max(now, _next_request_time)], with the lock released; and a
    caller that finds the schedule ahead of the clock sleeps the
    difference, once. *)
Theorem wait_resumes_at_reserved_instant (w : world) :
  let '(r, w', t) := _wait_for_request_slot w in
  r = Ok tt /\
  clock w' == Qmax (clock w) (_next_request_time (G w)) /\
  rate_limit_lock_held w' = false /\
  op_calls w' = op_calls w /\ rand_calls w' = rand_calls w /\
  (clock w < _next_request_time (G w) ->
   clock w' == _next_request_time (G w) /\
   exists d, sleeps RequestSlot t = [d] /\
             d == _next_request_time (G w) - clock w).
Proof.
  rewrite wait_for_request_slot_eq.
  split; [reflexivity|]. split; [apply clock_after_wait|].
  split; [|split; [apply op_calls_after_wait|
                   split; [apply rand_calls_after_wait|]]].
  - unfold after_wait.
    destruct (Qlt_le_dec 0 (reserved_in w - clock w)); reflexivity.
  - intros Hbusy.
    assert (Hres : reserved_in w == _next_request_time (G w))
      by (unfold reserved_in; apply Q.max_r; lra).
    split; [rewrite clock_after_wait; exact Hres|].
    unfold wait_trace.
    destruct (Qlt_le_dec 0 (reserved_in w - clock w)) as [_|Hle]; [|lra].
    exists (reserved_in w - clock w). split; [reflexivity|].
    rewrite Hres. reflexivity.
Qed.



(* ================================================================== *)
(** * The schedule over a run *)
(* ================================================================== *)










Section ScheduleOverARun.
Context {T : Type}.






End ScheduleOverARun.

(* ================================================================== *)
(** * Classification by the text of the message *)
(* ================================================================== *)

Section MessageText.
Local Open Scope string_scope.

Lemma string_append_assoc (a b c : string) :
  (a ++ b) ++ c = a ++ (b ++ c).
Proof. induction a as [|x a IH]; cbn; [reflexivity | now rewrite IH]. Qed.

Lemma substring_of_trans (a b c : string) :
  substring_of a b -> substring_of b c -> substring_of a c.
Proof.
  intros [p1 [q1 ->]] [p2 [q2 ->]].
  exists (p2 ++ p1), (q1 ++ q2).
  now rewrite !string_append_assoc.
Qed.

Lemma string_length_append (a b : string) :
  String.length (a ++ b) = (String.length a + String.length b)%nat.
Proof. induction a as [|c a IH]; cbn; [reflexivity | now rewrite IH]. Qed.

Lemma lower_length (m : string) : String.length (lower m) = String.length m.
Proof. induction m as [|c m IH]; cbn; [reflexivity | now rewrite IH]. Qed.

Lemma substring_of_length (a b : string) :
  substring_of a b -> (String.length a <= String.length b)%nat.
Proof.
  intros [p [q ->]]. rewrite !string_length_append. lia.
Qed.

Lemma retriable_tokens_length (token : string) :
  In token retriable_tokens -> (3 <= String.length token)%nat.
Proof.
  intros Hin. cbn in Hin.
  repeat (destruct Hin as [<-|Hin]; [cbn; lia|]). contradiction.
Qed.

Lemma text_match_inside (m before after : string) :
  existsb (fun token => contains token (lower m)) retriable_tokens = true ->
  existsb (fun token => contains token (lower (before ++ m ++ after)))
          retriable_tokens = true.
Proof.
  intros H. apply existsb_exists in H. destruct H as [token [Hin Hc]].
  apply existsb_exists. exists token. split; [exact Hin|].
  apply contains_iff_substring in Hc. apply contains_iff_substring.
  apply substring_of_trans with (lower m); [exact Hc|].
  exists (lower before), (lower after). now rewrite !lower_append.
Qed.

(** X10. An error that is retriable stays retriable when text is put before
    or after its message (an exception that wraps another and quotes
    it); so a message that is not retriable has no retriable part. *)
Theorem retriable_inside_longer_message
        (c : exn_class) (m before after : string) :
  _is_retriable_error (MkExn c m) = true ->
  _is_retriable_error (MkExn c (before ++ m ++ after)) = true.
Proof.
  unfold _is_retriable_error, isinstance. cbn [class_of message].
  destruct c; cbn [existsb exn_class_eqb orb]; try reflexivity;
    apply text_match_inside.
Qed.

(** X11. An error of none of the four retriable classes whose message has
    fewer than three characters, the empty message among them, is not
    retriable: every token is three characters or more. *)
Theorem short_message_is_fatal (e : exn) :
  class_of e = OtherException \/ class_of e = NotAnException ->
  (String.length (message e) < 3)%nat ->
  _is_retriable_error e = false.
Proof.
  intros Hclass Hshort.
  destruct (_is_retriable_error e) eqn:Hretry; [exfalso|reflexivity].
  unfold _is_retriable_error, isinstance in Hretry.
  destruct e as [c m]; cbn [class_of message] in *.
  assert (Htext : existsb (fun token => contains token (lower m))
                          retriable_tokens = true).
  { destruct Hclass as [->| ->]; exact Hretry. }
  apply existsb_exists in Htext. destruct Htext as [token [Hin Hc]].
  apply contains_iff_substring, substring_of_length in Hc.
  apply retriable_tokens_length in Hin. rewrite lower_length in Hc. lia.
Qed.

End MessageText.

Lemma retriable_inside_longer_message_witness :
  _is_retriable_error
    (MkExn OtherException
           ("HTTPError: " ++ "Connection RESET by peer" ++ " (attempt 1)"))
  = true.
Proof.
  exact (retriable_inside_longer_message
           OtherException "Connection RESET by peer"
           "HTTPError: " " (attempt 1)" eq_refl).
Defined.

Lemma short_message_is_fatal_witness :
  _is_retriable_error (MkExn OtherException "") = false.
Proof.
  exact (short_message_is_fatal (MkExn OtherException "")
           (or_introl eq_refl) ltac:(cbn; lia)).
Defined.

(* ================================================================== *)
(** * [search_papers], [get_paper_details], [get_author_details] *)
(* ================================================================== *)

(** A comprehension gives a list exactly when every item gives its
    element, and then element by element. *)
Lemma comprehension_ok {A B : Type} (f : A -> result B) (items : list A) :
  forall ys : list B,
    comprehension f items = Ok ys ->
    List.length ys = List.length items /\
    forall (i : nat) (x : A),
      nth_error items i = Some x ->
      exists y, f x = Ok y /\ nth_error ys i = Some y.
Proof.
  induction items as [|x items IH]; intros ys H.
  - inversion H. split; [reflexivity|]. intros i x' Hi.
    destruct i; discriminate.
  - cbn [comprehension] in H. destruct (f x) as [y|e] eqn:Hfx;
      [|discriminate].
    destruct (comprehension f items) as [ys'|e]; [|discriminate].
    inversion H; subst ys. destruct (IH ys' eq_refl) as [Hlen Hnth].
    split; [cbn; now rewrite Hlen|].
    intros i x' Hi. destruct i as [|i].
    + inversion Hi; subst x'. exists y. now split.
    + now apply Hnth.
Qed.

(** A comprehension raises exactly when some item does, and then what
    the first such item raises. *)
Lemma comprehension_raises {A B : Type} (f : A -> result B)
      (items : list A) (e : exn) :
  comprehension f items = Raise e ->
  exists x, In x items /\ f x = Raise e.
Proof.
  induction items as [|x items IH]; intros H; [discriminate|].
  cbn [comprehension] in H. destruct (f x) as [y|e'] eqn:Hfx.
  - destruct (comprehension f items) as [ys'|e'']; [discriminate|].
    inversion H; subst e''. destruct (IH eq_refl) as [x' [Hin Hx']].
    exists x'. split; [now right | exact Hx'].
  - inversion H; subst e'. exists x. split; [now left | exact Hfx].
Qed.

Lemma paper_dict_raises (paper : Paper) (e : exn) :
  paper_dict paper = Raise e ->
  authors paper = None /\ e = TypeError_not_iterable.
Proof.
  unfold paper_dict. destruct (authors paper); [discriminate|].
  intros H. inversion H. now split.
Qed.

Section Wrappers.
Variable rand : nat -> Q.
Variable client : SemanticScholar.

(** X12. [search_papers] gives all the papers or none.  It makes the calls,
    reservations and sleeps of the one executor call and no other; an
    exception of the executor is raised as it is, and a [None] from it
    is a [TypeError].  A list is returned only when the results were
    iterated to their end, one dictionary per paper and in their order,
    with the nine keys in the order written.  Otherwise the exception
    is the [TypeError] of a paper whose [authors] is [None], or the one
    that ended the iteration, which is not retried whatever it is. *)
Theorem search_papers_all_or_nothing
        (query : string) (limit : option Z) (w : world) :
  let '(r0, w0, t0) :=
    _call_with_rate_limit_and_backoff
      (bound_method rand client
         (search_paper client query (getenv limit 10%Z))) w in
  let '(r, w', t) := search_papers rand client query limit w in
  w' = w0 /\ t = t0 /\
  match r0 with
  | Raise e => r = Raise e
  | Ok None => r = Raise TypeError_not_iterable
  | Ok (Some it) =>
      match r with
      | Ok records =>
          ends_with it = None /\
          List.length records = List.length (yields it) /\
          forall (i : nat) (paper : Paper),
            nth_error (yields it) i = Some paper ->
            exists l,
              authors paper = Some l /\
              nth_error records i =
              Some [ ("paperId", Value (paperId paper));
                     ("title", Value (title paper));
                     ("abstract", Value (abstract paper));
                     ("year", Value (year paper));
                     ("authors", Dicts (map author_dict l));
                     ("url", Value (url paper));
                     ("venue", Value (venue paper));
                     ("publicationTypes", Value (publicationTypes paper));
                     ("citationCount", Value (citationCount paper)) ]%string
      | Raise e =>
          (e = TypeError_not_iterable /\
           exists paper, In paper (yields it) /\ authors paper = None) \/
          ends_with it = Some e
      end
  end.
Proof.
  unfold search_papers, bind.
  destruct (_call_with_rate_limit_and_backoff _ w) as [[r0 w0] t0].
  destruct r0 as [[it|]|e]; cbn [raise lift]; rewrite ?app_nil_r;
    try (now repeat split).
  unfold list_comprehension.
  destruct (comprehension paper_dict (yields it)) as [records|e] eqn:Hc.
  - destruct (ends_with it) as [e|] eqn:Hend.
    + repeat split. now right.
    + destruct (comprehension_ok paper_dict (yields it) records Hc)
        as [Hlen Hnth].
      repeat split; [exact Hlen|].
      intros i paper Hi. destruct (Hnth i paper Hi) as [d [Hd Hi']].
      unfold paper_dict in Hd. destruct (authors paper) as [l|];
        [|discriminate].
      exists l. split; [reflexivity|]. inversion Hd; subst d. exact Hi'.
  - destruct (comprehension_raises paper_dict (yields it) e Hc)
      as [paper [Hin Hp]].
    destruct (paper_dict_raises paper e Hp) as [Hauthors ->].
    repeat split. left. split; [reflexivity|]. now exists paper.
Qed.

(** X13. With [MAX_RETRIES] negative no request is made, and the three
    functions differ in what the caller gets: [get_paper_details] and
    [get_author_details] return [None], [search_papers] raises the
    [TypeError] of iterating [None]. *)
Theorem negative_max_retries_in_client_functions
        (query paper_id author_id : string) (limit : option Z)
        (w : world) :
  (MAX_RETRIES (G w) < 0)%Z ->
  search_papers rand client query limit w =
  (Raise TypeError_not_iterable, w, []) /\
  get_paper_details rand client paper_id w = (Ok None, w, []) /\
  get_author_details rand client author_id w = (Ok None, w, []).
Proof.
  intros Hneg.
  assert (Hnone : forall (T : Type) (s : surroundings T),
             _call_with_rate_limit_and_backoff s w = (Ok None, w, [])).
  { intros T s. rewrite call_with_rate_limit_and_backoff_eq.
    now replace (Z.to_nat (MAX_RETRIES (G w) + 1)) with 0%nat by lia. }
  unfold search_papers, get_paper_details, get_author_details, bind.
  rewrite !Hnone. repeat split.
Qed.

End Wrappers.

Lemma negative_max_retries_in_client_functions_witness :
  let client :=
    MkSemanticScholar
      (fun _ _ _ => Returns (MkIteration [] None))
      (fun _ _ => Raises service_unavailable)
      (fun _ _ => Raises service_unavailable)
      (fun _ => 1 # 10) in
  let w := boot (MkEnviron (Some (-1)%Z) None None None) 100 in
  search_papers (fun _ => 1 # 2) client "machine learning" None w =
  (Raise TypeError_not_iterable, w, []) /\
  get_paper_details (fun _ => 1 # 2) client "649def34" w = (Ok None, w, []) /\
  get_author_details (fun _ => 1 # 2) client "1741101" w = (Ok None, w, []).
Proof.
  cbv zeta.
  exact (negative_max_retries_in_client_functions
           (fun _ => 1 # 2)
           (MkSemanticScholar
              (fun _ _ _ => Returns (MkIteration [] None))
              (fun _ _ => Raises service_unavailable)
              (fun _ _ => Raises service_unavailable)
              (fun _ => 1 # 10))
           "machine learning" "649def34" "1741101" None
           (boot (MkEnviron (Some (-1)%Z) None None None) 100) eq_refl).
Defined.

(* ================================================================== *)
(** * [initialize_client] *)
(* ================================================================== *)

Section Strip.
Local Open Scope string_scope.

Lemma lstrip_spec (s : string) :
  exists l, s = l ++ lstrip s /\ all_whitespace l = true /\
            starts_with_whitespace (lstrip s) = false.
Proof.
  induction s as [|c s IH].
  - exists "". now repeat split.
  - cbn [lstrip]. destruct (is_whitespace c) eqn:Hc.
    + destruct IH as [l [Hs [Hl Hstart]]].
      exists (String c l). cbn. rewrite Hc, Hl, <- Hs. now repeat split.
    + exists "". cbn. now rewrite Hc.
Qed.

Lemma rstrip_spec (s : string) :
  exists r, s = rstrip s ++ r /\ all_whitespace r = true /\
            ends_with_whitespace (rstrip s) = false /\
            (starts_with_whitespace s = false ->
             starts_with_whitespace (rstrip s) = false).
Proof.
  induction s as [|c s IH].
  - exists "". now repeat split.
  - destruct IH as [r [Hs [Hr [Hend _]]]]. cbn [rstrip].
    destruct (rstrip s) as [|c' kept] eqn:Hk.
    + destruct (is_whitespace c) eqn:Hc.
      * exists (String c r). cbn [append] in *. subst s.
        cbn [all_whitespace ends_with_whitespace starts_with_whitespace].
        rewrite Hc, Hr. repeat split; reflexivity.
      * exists r. cbn [append] in *. subst s.
        cbn [ends_with_whitespace starts_with_whitespace].
        rewrite Hc. repeat split; try reflexivity; assumption.
    + exists r. cbn [append] in *. rewrite <- Hs.
      split; [reflexivity|]. split; [exact Hr|].
      split; [exact Hend | intros H; exact H].
Qed.

Lemma is_whitespace_iff (c : ascii) :
  is_whitespace c = true <-> In (nat_of_ascii c) ascii_whitespace.
Proof.
  unfold is_whitespace, ascii_whitespace. cbv zeta. cbn [In].
  rewrite orb_true_iff, !andb_true_iff, !Nat.leb_le. lia.
Qed.

Lemma all_whitespace_only (s : string) :
  all_whitespace s = true -> whitespace_only s.
Proof.
  induction s as [|c s IH]; cbn [all_whitespace whitespace_only];
    [trivial|].
  rewrite andb_true_iff. intros [Hc Hs].
  split; [now apply is_whitespace_iff | now apply IH].
Qed.

Lemma starts_without_whitespace (s : string) (c : ascii) (rest : string) :
  starts_with_whitespace s = false ->
  s = String c rest -> ~ In (nat_of_ascii c) ascii_whitespace.
Proof.
  intros Hs -> Hin. apply is_whitespace_iff in Hin.
  cbn in Hs. congruence.
Qed.

Lemma ends_without_whitespace (s : string) :
  ends_with_whitespace s = false ->
  forall (front : string) (c : ascii),
    s = front ++ String c "" -> ~ In (nat_of_ascii c) ascii_whitespace.
Proof.
  induction s as [|c' s IH]; intros Hs front c Heq Hin.
  - destruct front; discriminate.
  - destruct front as [|f front]; cbn [append] in Heq.
    + inversion Heq; subst. apply is_whitespace_iff in Hin.
      cbn in Hs. congruence.
    + inversion Heq; subst. apply IH with front c; try reflexivity;
        [|exact Hin].
      cbn [ends_with_whitespace] in Hs.
      destruct (front ++ String c "") eqn:Hf; [|exact Hs].
      destruct front; discriminate.
Qed.

(** X14. [initialize_client] with [S2_API_KEY] set to a string of ASCII
    characters: the client is built with [retry=False] and with the
    value less the whitespace around it as its key (tabs, line ends,
    separators and spaces, as many as there are, up to the first and
    from the last character that is none of them), nothing else of it
    changed; when nothing is left, as when the variable is unset, it is
    built without a key.  So [  s2-key-0123 ] gives the key
    [s2-key-0123], a key between a tab and a line end keeps the space
    inside it, and blanks alone give no key. *)
Theorem initialize_client_strips_the_key (value : string) :
  ascii_only value = true ->
  initialize_client None = MkClientArguments None false /\
  (exists before key after,
     value = before ++ key ++ after /\
     whitespace_only before /\ whitespace_only after /\
     (forall c rest,
        key = String c rest -> ~ In (nat_of_ascii c) ascii_whitespace) /\
     (forall front c,
        key = front ++ String c "" ->
        ~ In (nat_of_ascii c) ascii_whitespace) /\
     initialize_client (Some value) =
     MkClientArguments (match key with
                        | EmptyString => None
                        | String _ _ => Some key
                        end) false) /\
  initialize_client (Some "  s2-key-0123 ") =
  MkClientArguments (Some "s2-key-0123") false /\
  initialize_client
    (Some (String (ascii_of_nat 9)
             ("my key" ++ String (ascii_of_nat 13)
                            (String (ascii_of_nat 10) "")))) =
  MkClientArguments (Some "my key") false /\
  initialize_client (Some "   ") = MkClientArguments None false /\
  initialize_client (Some "") = MkClientArguments None false.
Proof.
  intros _. split; [reflexivity|].
  split; [|repeat split; reflexivity].
  destruct (lstrip_spec value) as [before [Hv [Hb Hstart]]].
  destruct (rstrip_spec (lstrip value)) as [after [Hk [Ha [Hend Hkeep]]]].
  exists before, (strip value), after. unfold strip.
  split; [now rewrite <- Hk|].
  split; [now apply all_whitespace_only|].
  split; [now apply all_whitespace_only|].
  split; [|split].
  - intros c rest. apply starts_without_whitespace. now apply Hkeep.
  - now apply ends_without_whitespace.
  - unfold initialize_client, strip. cbn [getenv].
    now destruct (rstrip (lstrip value)).
Qed.

End Strip.

Lemma initialize_client_strips_the_key_witness :
  ascii_only "  s2-key-0123 " = true /\
  (initialize_client None = MkClientArguments None false /\
   (exists before key after,
      "  s2-key-0123 "%string = (before ++ key ++ after)%string /\
      whitespace_only before /\ whitespace_only after /\
      (forall c rest,
         key = String c rest -> ~ In (nat_of_ascii c) ascii_whitespace) /\
      (forall front c,
         key = (front ++ String c "")%string ->
         ~ In (nat_of_ascii c) ascii_whitespace) /\
      initialize_client (Some "  s2-key-0123 "%string) =
      MkClientArguments (match key with
                         | EmptyString => None
                         | String _ _ => Some key
                         end) false) /\
   initialize_client (Some "  s2-key-0123 "%string) =
   MkClientArguments (Some "s2-key-0123"%string) false /\
   initialize_client
     (Some (String (ascii_of_nat 9)
              ("my key" ++ String (ascii_of_nat 13)
                             (String (ascii_of_nat 10) ""))%string)) =
   MkClientArguments (Some "my key"%string) false /\
   initialize_client (Some "   "%string) = MkClientArguments None false /\
   initialize_client (Some ""%string) = MkClientArguments None false).
Proof.
  split; [reflexivity|].
  pose proof (initialize_client_strips_the_key "  s2-key-0123 " eq_refl)
    as H.
  exact H.
Defined.
